(** * jsondoc: the type-resolution and rendering engine of cmd/jsondoc/main.go

    A shallow embedding of the generator's state (the [JSONDoc] struct), of the
    parts of go/ast it walks, and of the functions [tagToName], [findObject],
    [renderLater], [typeLink], [appendFields], [renderType1], [renderTypes],
    [input] and [output], followed by the properties of the rendering queue,
    of anchors and of error propagation. *)

From Stdlib Require Import Ascii String List Arith NArith Lia.
From stdpp Require Import base option list strings gmap pretty.

Open Scope string_scope.

(** ** Byte strings and the Go standard-library functions the generator calls

    Go strings are byte sequences, and so are [string]s here.  The functions
    of this module follow the Go library on ASCII input; bytes from 128 up
    are copied through, which is what the library does on well-formed UTF-8
    text of printable runes. *)
Module golib.

(** The double quote, the line feed and the backslash as one-byte strings. *)
Definition dq : string := String "034"%char EmptyString.
Definition nl : string := String "010"%char EmptyString.
Definition bs : string := String "092"%char EmptyString.

Definition byte_in (c : ascii) (lo hi : nat) : bool :=
  Nat.leb lo (nat_of_ascii c) && Nat.leb (nat_of_ascii c) hi.

Fixpoint concat_strings (l : list string) : string :=
  match l with
  | [] => ""
  | s :: l' => s +:+ concat_strings l'
  end.

Fixpoint contains_byte (c : ascii) (s : string) : bool :=
  match s with
  | EmptyString => false
  | String a s' => if Ascii.eqb a c then true else contains_byte c s'
  end.

(** strings.HasPrefix and strings.HasSuffix. *)
Fixpoint strings_HasPrefix (s p : string) : bool :=
  match p, s with
  | EmptyString, _ => true
  | String b p', String a s' => if Ascii.eqb a b then strings_HasPrefix s' p' else false
  | String _ _, EmptyString => false
  end.

Definition strings_HasSuffix (s suffix : string) : bool :=
  strings_HasPrefix (String.rev s) (String.rev suffix).

(** strings.Replace(s, old, new, -1) for a one-byte [old]. *)
Fixpoint strings_Replace (s : string) (old : ascii) (new : string) : string :=
  match s with
  | EmptyString => EmptyString
  | String a s' =>
      if Ascii.eqb a old then new +:+ strings_Replace s' old new
      else String a (strings_Replace s' old new)
  end.

(** strings.LastIndexByte: [None] stands for Go's -1. *)
Fixpoint strings_LastIndexByte (s : string) (c : ascii) : option nat :=
  match s with
  | EmptyString => None
  | String a s' =>
      match strings_LastIndexByte s' c with
      | Some i => Some (S i)
      | None => if Ascii.eqb a c then Some 0 else None
      end
  end.

(** The slices s[:i] and s[i:]. *)
Fixpoint take_bytes (i : nat) (s : string) : string :=
  match i, s with
  | S i', String a s' => String a (take_bytes i' s')
  | _, _ => EmptyString
  end.

Fixpoint drop_bytes (i : nat) (s : string) : string :=
  match i, s with
  | S i', String _ s' => drop_bytes i' s'
  | _, _ => s
  end.

(** strings.Split(s, sep) for a one-byte separator: never the empty list. *)
Fixpoint strings_Split (s : string) (sep : ascii) : list string :=
  match s with
  | EmptyString => [EmptyString]
  | String a s' =>
      if Ascii.eqb a sep then EmptyString :: strings_Split s' sep
      else match strings_Split s' sep with
           | [] => [String a EmptyString]
           | w :: ws => String a w :: ws
           end
  end.

(** strings.TrimSpace on the ASCII white space: tab, line feed, vertical
    tab, form feed, carriage return and space. *)
Definition is_space (c : ascii) : bool :=
  byte_in c 9 13 || Ascii.eqb c " "%char.

Fixpoint trim_left (s : string) : string :=
  match s with
  | String a s' => if is_space a then trim_left s' else s
  | EmptyString => EmptyString
  end.

Definition strings_TrimSpace (s : string) : string :=
  String.rev (trim_left (String.rev (trim_left s))).

(** html.EscapeString: the five characters it replaces. *)
Definition html_escape_byte (c : ascii) : string :=
  if Ascii.eqb c "&"%char then "&amp;"
  else if Ascii.eqb c "'"%char then "&#39;"
  else if Ascii.eqb c "<"%char then "&lt;"
  else if Ascii.eqb c ">"%char then "&gt;"
  else if Ascii.eqb c "034"%char then "&#34;"
  else String c EmptyString.

Fixpoint html_EscapeString (s : string) : string :=
  match s with
  | EmptyString => EmptyString
  | String a s' => html_escape_byte a +:+ html_EscapeString s'
  end.

(** ast.IsExported: the first rune is an upper-case letter.  The model
    decides it for a name that starts with an ASCII byte; for another first
    rune Go asks unicode.IsUpper, and the model answers false. *)
Definition ast_IsExported (name : string) : bool :=
  match name with
  | String a _ => byte_in a 65 90
  | EmptyString => false
  end.

(** *** strconv.Quote *)
Definition hex_digit (n : nat) : ascii :=
  match String.get n "0123456789abcdef" with
  | Some c => c
  | None => "0"%char
  end.

Definition quote_byte (c : ascii) : string :=
  let n := nat_of_ascii c in
  if Ascii.eqb c "034"%char then bs +:+ dq
  else if Ascii.eqb c "092"%char then bs +:+ bs
  else if byte_in c 32 126 then String c EmptyString
  else if Nat.eqb n 7 then bs +:+ "a"
  else if Nat.eqb n 8 then bs +:+ "b"
  else if Nat.eqb n 12 then bs +:+ "f"
  else if Nat.eqb n 10 then bs +:+ "n"
  else if Nat.eqb n 13 then bs +:+ "r"
  else if Nat.eqb n 9 then bs +:+ "t"
  else if Nat.eqb n 11 then bs +:+ "v"
  else if Nat.ltb n 128 then
    bs +:+ "x" +:+ String (hex_digit (n / 16)) (String (hex_digit (n mod 16)) EmptyString)
  else String c EmptyString.

Fixpoint quote_bytes (s : string) : string :=
  match s with
  | EmptyString => EmptyString
  | String a s' => quote_byte a +:+ quote_bytes s'
  end.

Definition strconv_Quote (s : string) : string := dq +:+ quote_bytes s +:+ dq.

(** *** strconv.Unquote *)
Definition hex_val (c : ascii) : option N :=
  if byte_in c 48 57 then Some (N_of_ascii c - 48)%N
  else if byte_in c 97 102 then Some (N_of_ascii c - 87)%N
  else if byte_in c 65 70 then Some (N_of_ascii c - 55)%N
  else None.

(** The value of the first [n] bytes of [s] as hexadecimal digits, with
    the rest of [s]. *)
Fixpoint read_hex (n : nat) (acc : N) (s : string) : option (N * string) :=
  match n with
  | 0 => Some (acc, s)
  | S n' =>
      match s with
      | String a s' =>
          match hex_val a with
          | Some v => read_hex n' (16 * acc + v)%N s'
          | None => None
          end
      | EmptyString => None
      end
  end.

Fixpoint read_oct (n : nat) (acc : N) (s : string) : option (N * string) :=
  match n with
  | 0 => Some (acc, s)
  | S n' =>
      match s with
      | String a s' =>
          if byte_in a 48 55 then read_oct n' (8 * acc + (N_of_ascii a - 48))%N s'
          else None
      | EmptyString => None
      end
  end.

(** utf8.ValidRune and the UTF-8 encoding of a rune. *)
Definition valid_rune (v : N) : bool :=
  (v <? 55296)%N || ((57343 <? v)%N && (v <=? 1114111)%N).

Definition byte_of (n : N) : ascii := ascii_of_N n.

Definition utf8_encode (v : N) : string :=
  if (v <? 128)%N then String (byte_of v) EmptyString
  else if (v <? 2048)%N then
    String (byte_of (192 + v / 64)) (String (byte_of (128 + v mod 64)) EmptyString)
  else if (v <? 65536)%N then
    String (byte_of (224 + v / 4096))
      (String (byte_of (128 + (v / 64) mod 64))
         (String (byte_of (128 + v mod 64)) EmptyString))
  else
    String (byte_of (240 + v / 262144))
      (String (byte_of (128 + (v / 4096) mod 64))
         (String (byte_of (128 + (v / 64) mod 64))
            (String (byte_of (128 + v mod 64)) EmptyString))).

(** strconv.UnquoteChar on a non-empty string: the decoded bytes and the
    tail, or [None] for ErrSyntax. *)
Definition UnquoteChar (a : ascii) (s : string) (quote : ascii)
  : option (string * string) :=
  if Ascii.eqb a quote && (Ascii.eqb quote "'"%char || Ascii.eqb quote "034"%char)
  then None
  else if negb (Ascii.eqb a "092"%char) then Some (String a EmptyString, s)
  else
    match s with
    | EmptyString => None
    | String c s' =>
        let one (n : N) := Some (String (byte_of n) EmptyString, s') in
        if Ascii.eqb c "a"%char then one 7%N
        else if Ascii.eqb c "b"%char then one 8%N
        else if Ascii.eqb c "f"%char then one 12%N
        else if Ascii.eqb c "n"%char then one 10%N
        else if Ascii.eqb c "r"%char then one 13%N
        else if Ascii.eqb c "t"%char then one 9%N
        else if Ascii.eqb c "v"%char then one 11%N
        else if Ascii.eqb c "x"%char then
          match read_hex 2 0%N s' with
          | Some (v, r) => Some (String (byte_of v) EmptyString, r)
          | None => None
          end
        else if Ascii.eqb c "u"%char then
          match read_hex 4 0%N s' with
          | Some (v, r) => if valid_rune v then Some (utf8_encode v, r) else None
          | None => None
          end
        else if Ascii.eqb c "U"%char then
          match read_hex 8 0%N s' with
          | Some (v, r) => if valid_rune v then Some (utf8_encode v, r) else None
          | None => None
          end
        else if byte_in c 48 55 then
          match read_oct 2 (N_of_ascii c - 48)%N s' with
          | Some (v, r) => if (255 <? v)%N then None else Some (String (byte_of v) EmptyString, r)
          | None => None
          end
        else if Ascii.eqb c "092"%char then one 92%N
        else if Ascii.eqb c "'"%char || Ascii.eqb c "034"%char then
          if Ascii.eqb c quote then Some (String c EmptyString, s') else None
        else None
    end.

(** The loop of Unquote over the body of an interpreted literal; [fuel] is
    at least the length of the body, every round consumes a byte. *)
Fixpoint unquote_loop (fuel : nat) (s : string) (quote : ascii) : option string :=
  match s with
  | EmptyString => Some EmptyString
  | String a s' =>
      match fuel with
      | 0 => None
      | S fuel' =>
          match UnquoteChar a s' quote with
          | None => None
          | Some (out, rest) =>
              if Ascii.eqb quote "'"%char && negb (String.eqb rest EmptyString) then None
              else match unquote_loop fuel' rest quote with
                   | Some t => Some (out +:+ t)
                   | None => None
                   end
          end
      end
  end.

Definition strip_cr (s : string) : string := strings_Replace s "013"%char EmptyString.

Definition last_byte (s : string) : option ascii :=
  String.get (String.length s - 1) s.

(** strconv.Unquote: [None] stands for ErrSyntax. *)
Definition strconv_Unquote (s : string) : option string :=
  match s with
  | String quote rest =>
      if Nat.ltb (String.length s) 2 then None
      else match last_byte s with
           | Some e =>
               if negb (Ascii.eqb quote e) then None
               else
                 let body := take_bytes (String.length rest - 1) rest in
                 if Ascii.eqb quote "`"%char then
                   if contains_byte "`"%char body then None
                   else Some (strip_cr body)
                 else if Ascii.eqb quote "034"%char || Ascii.eqb quote "'"%char then
                   if contains_byte "010"%char body then None
                   else if Ascii.eqb quote "'"%char && String.eqb body EmptyString then None
                   else unquote_loop (String.length body) body quote
                 else None
           | None => None
           end
  | EmptyString => None
  end.

(** *** reflect.StructTag.Get *)
Fixpoint skip_spaces (s : string) : string :=
  match s with
  | String a s' => if Ascii.eqb a " "%char then skip_spaces s' else s
  | EmptyString => EmptyString
  end.

(** The index of the first byte that ends a tag key: a byte up to space, a
    colon, a quote or DEL. *)
Fixpoint scan_key (s : string) : nat :=
  match s with
  | String a s' =>
      if Nat.ltb 32 (nat_of_ascii a) && negb (Ascii.eqb a ":"%char)
         && negb (Ascii.eqb a "034"%char) && negb (Nat.eqb (nat_of_ascii a) 127)
      then S (scan_key s')
      else 0
  | EmptyString => 0
  end.

(** The index of the quote closing a quoted value whose scan is at byte [i],
    a backslash skipping one byte; an index at or beyond the length when
    there is none. *)
Fixpoint scan_value (fuel : nat) (i : nat) (s : string) : nat :=
  match fuel with
  | 0 => i
  | S fuel' =>
      match String.get i s with
      | None => i
      | Some a =>
          if Ascii.eqb a "034"%char then i
          else if Ascii.eqb a "092"%char then scan_value fuel' (i + 2) s
          else scan_value fuel' (i + 1) s
      end
  end.

Fixpoint StructTag_Lookup (fuel : nat) (tag key : string) : option string :=
  match fuel with
  | 0 => None
  | S fuel' =>
      let tag := skip_spaces tag in
      if String.eqb tag EmptyString then None
      else
        let i := scan_key tag in
        if Nat.eqb i 0 || Nat.leb (String.length tag) (i + 1) then None
        else match String.get i tag, String.get (i + 1) tag with
             | Some a, Some b =>
                 if negb (Ascii.eqb a ":"%char) || negb (Ascii.eqb b "034"%char) then None
                 else
                   let name := take_bytes i tag in
                   let tag := drop_bytes (i + 1) tag in
                   let j := scan_value (String.length tag) 1 tag in
                   if Nat.leb (String.length tag) j then None
                   else
                     let qvalue := take_bytes (j + 1) tag in
                     let tag := drop_bytes (j + 1) tag in
                     if String.eqb key name then strconv_Unquote qvalue
                     else StructTag_Lookup fuel' tag key
             | _, _ => None
             end
  end.

(** Get returns the empty string when the key is absent or the tag is not
    in the conventional format. *)
Definition StructTag_Get (tag key : string) : string :=
  default EmptyString (StructTag_Lookup (S (String.length tag)) tag key).

End golib.

Import golib.

Example Quote_ex : strconv_Quote "Name" = dq +:+ "Name" +:+ dq.
Proof. reflexivity. Qed.

Example Unquote_raw_ex :
  strconv_Unquote ("`json:" +:+ dq +:+ "test" +:+ dq +:+ "`") = Some ("json:" +:+ dq +:+ "test" +:+ dq).
Proof. reflexivity. Qed.

Example Unquote_interpreted_ex :
  strconv_Unquote (dq +:+ "json:" +:+ bs +:+ dq +:+ "a" +:+ bs +:+ "t" +:+ bs +:+ "x41" +:+ bs +:+ dq +:+ dq)
  = Some ("json:" +:+ dq +:+ "a" +:+ String "009"%char "A" +:+ dq).
Proof. reflexivity. Qed.

Example Unquote_unterminated_ex : strconv_Unquote ("`json") = None.
Proof. reflexivity. Qed.

Example Get_ex :
  StructTag_Get ("xml:" +:+ dq +:+ "a" +:+ dq +:+ " json:" +:+ dq +:+ "error,omitempty" +:+ dq) "json"
  = "error,omitempty".
Proof. reflexivity. Qed.

Example Split_ex : strings_Split "error,omitempty" ","%char = ["error"; "omitempty"].
Proof. reflexivity. Qed.

Example Escape_ex : html_EscapeString (strconv_Quote "A<b") = "&#34;A&lt;b&#34;".
Proof. reflexivity. Qed.

Example HasSuffix_ex : strings_HasSuffix "x-element" "-element" = true.
Proof. reflexivity. Qed.

Example LastIndexByte_ex : strings_LastIndexByte "a/b.c.T" "."%char = Some 5.
Proof. reflexivity. Qed.

(** ** The syntax trees of go/ast that the generator walks

    Go compares tree nodes by address: the keys of [links] and [rendered]
    are pointers.  Every node and every object carries its address. *)
Module ast.

Definition ptr := nat.

Inductive Expr : Type :=
| Ident (p : ptr) (Name : string)
| StructType (p : ptr) (Fields : list Field)
| MapType (p : ptr) (Key Value : Expr)
| ArrayType (p : ptr) (Elt : Expr)
| SelectorExpr (p : ptr) (X : Expr) (Sel : string)
| StarExpr (p : ptr) (X : Expr)
| OtherExpr (p : ptr)
with Field : Type :=
| mkField (Names : list string) (Typ : Expr) (Tag : option string) (Comment : string).

Definition expr_ptr (e : Expr) : ptr :=
  match e with
  | Ident p _ | StructType p _ | MapType p _ _ | ArrayType p _
  | SelectorExpr p _ _ | StarExpr p _ | OtherExpr p => p
  end.

(** The fields of [ast.Field]: [Tag] is the literal's source text when there
    is a tag, [Comment] is the text of the line comment (Comment.Text()). *)
Definition Names (f : Field) : list string := let 'mkField ns _ _ _ := f in ns.
Definition Typ (f : Field) : Expr := let 'mkField _ t _ _ := f in t.
Definition Tag (f : Field) : option string := let 'mkField _ _ t _ := f in t.
Definition Comment (f : Field) : string := let 'mkField _ _ _ c := f in c.

Record TypeSpec := mkTypeSpec { ts_Name : string; ts_Type : Expr }.

(** What [Object.Decl] holds: a type specification or another declaration
    (a function, a variable, a constant). *)
Inductive Decl :=
| DeclTypeSpec (t : TypeSpec)
| DeclOther.

Record Object := mkObject { obj_ptr : ptr; obj_Decl : Decl }.

(** An import: its local name when it has one, and the path literal with
    its quotes. *)
Record ImportSpec := mkImportSpec { imp_Name : option string; imp_Path : string }.

Record File := mkFile { Scope : gmap string Object; Imports : list ImportSpec }.

(** [Files] is a Go map from file name to file.  The list is the order in
    which one range statement visits it (Go takes a new order at every
    range statement); in a package where no name is declared in two files
    the result of a search does not depend on it. *)
Record Package := mkPackage { pkg_Name : string; Files : list (string * File) }.

End ast.

Import ast.

(** ** The generator *)

(** Go's error values: the sentinel [NotExported], strconv.ErrSyntax, and
    the errors made by errors.New and fmt.Errorf. *)
Inductive error :=
| NotExported
| ErrSyntax
| errorString (msg : string).

Definition Error (e : error) : string :=
  match e with
  | NotExported => "Not exported"
  | ErrSyntax => "invalid syntax"
  | errorString msg => msg
  end.

(** How a call ends: it returns a value with a nil error, returns an
    error, panics, or the model ran out of fuel (the call is still
    running). *)
Inductive outcome (A : Type) :=
| Ret (a : A)
| Fail (e : error)
| Crash
| OutOfFuel.
Arguments Ret {A} a.
Arguments Fail {A} e.
Arguments Crash {A}.
Arguments OutOfFuel {A}.

Record context := mkContext { Path : string; Package_ : Package; File_ : File }.

Record queueElem := mkQueueElem { q_t : TypeSpec; q_c : option context; q_id : string }.

(** A row of a table. *)
Record field := mkfield { f_Name : string; f_Type : string; f_Description : string }.

(** The JSONDoc struct without its templates, and the text written to
    os.Stderr so far. *)
Record JSONDoc := mkJSONDoc {
  imports : gmap string string;
  packages : gmap string Package;
  packageNames : gmap string string;
  b : string;
  rendered : gmap (string * ptr) string;
  renderQueue : list queueElem;
  links : gmap string (gmap ptr nat);
  title : string;
  stderr : string
}.

Definition set_imports (v : gmap string string) (d : JSONDoc) : JSONDoc :=
  mkJSONDoc v (packages d) (packageNames d) (b d) (rendered d) (renderQueue d) (links d) (title d) (stderr d).
Definition set_packages (v : gmap string Package) (d : JSONDoc) : JSONDoc :=
  mkJSONDoc (imports d) v (packageNames d) (b d) (rendered d) (renderQueue d) (links d) (title d) (stderr d).
Definition set_packageNames (v : gmap string string) (d : JSONDoc) : JSONDoc :=
  mkJSONDoc (imports d) (packages d) v (b d) (rendered d) (renderQueue d) (links d) (title d) (stderr d).
Definition set_b (v : string) (d : JSONDoc) : JSONDoc :=
  mkJSONDoc (imports d) (packages d) (packageNames d) v (rendered d) (renderQueue d) (links d) (title d) (stderr d).
Definition set_rendered (v : gmap (string * ptr) string) (d : JSONDoc) : JSONDoc :=
  mkJSONDoc (imports d) (packages d) (packageNames d) (b d) v (renderQueue d) (links d) (title d) (stderr d).
Definition set_renderQueue (v : list queueElem) (d : JSONDoc) : JSONDoc :=
  mkJSONDoc (imports d) (packages d) (packageNames d) (b d) (rendered d) v (links d) (title d) (stderr d).
Definition set_links (v : gmap string (gmap ptr nat)) (d : JSONDoc) : JSONDoc :=
  mkJSONDoc (imports d) (packages d) (packageNames d) (b d) (rendered d) (renderQueue d) v (title d) (stderr d).
Definition set_title (v : string) (d : JSONDoc) : JSONDoc :=
  mkJSONDoc (imports d) (packages d) (packageNames d) (b d) (rendered d) (renderQueue d) (links d) v (stderr d).
Definition set_stderr (v : string) (d : JSONDoc) : JSONDoc :=
  mkJSONDoc (imports d) (packages d) (packageNames d) (b d) (rendered d) (renderQueue d) (links d) (title d) v.

(** NewJSONDoc: empty maps, an empty buffer and queue. *)
Definition NewJSONDoc : JSONDoc :=
  mkJSONDoc ∅ ∅ ∅ "" ∅ [] ∅ "" "".

(** A method of *JSONDoc: it reads and updates the receiver. *)
Definition M (A : Type) : Type := JSONDoc → outcome A * JSONDoc.

Definition ret {A} (a : A) : M A := λ d, (Ret a, d).
Definition fail {A} (e : error) : M A := λ d, (Fail e, d).
Definition crash {A} : M A := λ d, (Crash, d).
Definition outOfFuel {A} : M A := λ d, (OutOfFuel, d).

Definition bind {A B} (m : M A) (k : A → M B) : M B := λ d,
  match m d with
  | (Ret a, d') => k a d'
  | (Fail e, d') => (Fail e, d')
  | (Crash, d') => (Crash, d')
  | (OutOfFuel, d') => (OutOfFuel, d')
  end.

Notation "'do' x <- m ; k" := (bind m (λ x, k))
  (at level 10, x name, m at level 100, k at level 200,
   format "'[v' 'do'  x  <-  m ; '/' k ']'").
Notation "m ;; k" := (bind m (λ _, k))
  (at level 100, k at level 200, right associativity).

(** [v, err := m; if err != nil { h err }; k v]: an error of [m] is
    handled by [h] instead of being returned. *)
Definition bind_err {A B} (m : M A) (h : error → M B) (k : A → M B) : M B := λ d,
  match m d with
  | (Ret a, d') => k a d'
  | (Fail e, d') => h e d'
  | (Crash, d') => (Crash, d')
  | (OutOfFuel, d') => (OutOfFuel, d')
  end.

Definition modify (f : JSONDoc → JSONDoc) : M unit := λ d, (Ret tt, f d).
Definition get {A} (f : JSONDoc → A) : M A := λ d, (Ret (f d), d).

(** A write to the buffer d.b, and a write to os.Stderr. *)
Definition write_b (s : string) : M unit := modify (λ d, set_b (b d +:+ s) d).
Definition write_stderr (s : string) : M unit := modify (λ d, set_stderr (stderr d +:+ s) d).

(** A Go map read m[k] of a string-valued map: the empty string when the
    key is absent. *)
Definition map_get `{Countable K} (m : gmap K string) (k : K) : string :=
  default "" (m !! k).

(** *** What the generator asks of the Go tool chain

    [build_Import path] is build.Import(path, "", 0): the package's name
    and source root, or an error.  [parser_ParseDir root path] is
    parser.ParseDir on filepath.Join(root, path) with the filter notTest:
    the packages of the directory, or an error.  [fmt_Sprint] is fmt.Sprint
    on a tree node (it prints addresses). *)
Record BuildPackage := mkBuildPackage { bp_Name : string; bp_SrcRoot : string }.

Record GoEnv := mkGoEnv {
  build_Import : string → BuildPackage + error;
  parser_ParseDir : string → string → list Package + error;
  fmt_Sprint : Expr → string
}.

(** *** tagToName *)
Definition tagToName (name : string) (tag : option string) : outcome string :=
  if negb (ast_IsExported name) then Fail NotExported
  else
    match tag with
    | Some value =>
        match strconv_Unquote value with
        | None => Fail ErrSyntax
        | Some s =>
            let s := StructTag_Get s "json" in
            if String.eqb s "" then Ret (strconv_Quote name)
            else
              let fields := strings_Split s ","%char in
              if String.eqb (hd "" fields) "-" then Fail NotExported
              else
                let suffix :=
                  fold_left (λ suffix f, if String.eqb f "omitempty" then " (optional)" else suffix)
                            (tl fields) "" in
                Ret (strconv_Quote (hd "" fields) +:+ suffix)
        end
    | None => Ret (strconv_Quote name)
    end.

(** *** findObject *)
Definition builtin_names : list string :=
  ["bool"; "byte"; "complex128"; "complex64"; "error"; "float32"; "float64";
   "int"; "int16"; "int32"; "int64"; "int8"; "rune"; "string"; "uint";
   "uint16"; "uint32"; "uint64"; "uint8"; "uintptr"].

Definition builtin (name : string) : bool :=
  existsb (String.eqb name) builtin_names.

Fixpoint findInFiles (name : string) (files : list (string * File)) : option (Object * File) :=
  match files with
  | [] => None
  | (_, f) :: files' =>
      match Scope f !! name with
      | Some o => Some (o, f)
      | None => findInFiles name files'
      end
  end.

(** The three results of findObject; a nil package is dereferenced. *)
Definition findObject (name : string) (pkg : option Package) (path : string)
  : outcome (option Object * option context * option error) :=
  match pkg with
  | None => Crash
  | Some pkg =>
      match findInFiles name (Files pkg) with
      | Some (o, f) => Ret (Some o, Some (mkContext path pkg f), None)
      | None =>
          if builtin name then Ret (None, None, None)
          else Ret (None, None,
                    Some (errorString ("identifier " +:+ name +:+ " not found in package " +:+ path)))
      end
  end.

Definition lift {A} (o : outcome A) : M A := λ d, (o, d).

(** *** renderLater *)
Definition anchor (s : string) (i : nat) : string := s +:+ "-" +:+ pretty i.

(** len(d.links[base]), the counter of a base name: a map that is absent is
    empty. *)
Definition counter (d : JSONDoc) (base : string) : nat :=
  size (default ∅ (links d !! base)).

(** [links] after d.links[s][t] = len(d.links[s]) + 1, the map made when
    absent. *)
Definition link_insert (s : string) (t : Expr) (d : JSONDoc) : gmap string (gmap ptr nat) :=
  <[s := <[expr_ptr t := counter d s + 1]> (default ∅ (links d !! s))]> (links d).

Definition renderLater (name : string) (t : option Expr) (c : option context) : M string :=
  match t with
  | Some t =>
      let s := "type-" +:+ strings_Replace name " "%char "-" in
      do i <- get (λ d, counter d s + 1);
      modify (λ d, set_links (link_insert s t d) d);;
      let s := anchor s i in
      modify (λ d, set_renderQueue (renderQueue d ++ [mkQueueElem (mkTypeSpec name t) c s]) d);;
      ret s
  | None =>
      match c with
      | None => crash
      | Some c0 =>
          do r <- lift (findObject name (Some (Package_ c0)) (Path c0));
          match r with
          | (_, _, Some err) => write_stderr (Error err +:+ nl);; ret ""
          | (None, _, None) => ret ""
          | (Some o, c, None) =>
              do s <- get (λ d, map_get (rendered d) (name, obj_ptr o));
              if negb (String.eqb s "") then ret s
              else
                match obj_Decl o with
                | DeclTypeSpec t =>
                    let s := "type-" +:+ name in
                    do i <- get (λ d, counter d s + 1);
                    modify (λ d, set_links (link_insert s (ts_Type t) d) d);;
                    let s := anchor s i in
                    modify (λ d, set_renderQueue (renderQueue d ++ [mkQueueElem t c s]) d);;
                    modify (λ d, set_rendered (<[(name, obj_ptr o) := s]> (rendered d)) d);;
                    ret s
                | DeclOther => ret ""
                end
          end
      end
  end.

Section Generator.

Context (env : GoEnv).

(** *** parsedPackage *)
Definition parsedPackage (path : string) : M Package := λ d,
  match packages d !! path with
  | Some pkg => (Ret pkg, d)
  | None =>
      match build_Import env path with
      | inr err => (Fail err, d)
      | inl p =>
          match parser_ParseDir env (bp_SrcRoot p) path with
          | inr err => (Fail err, d)
          | inl pkg =>
              if Nat.ltb 1 (length pkg)
              then (Fail (errorString ("more than one package in directory " +:+ path)), d)
              else
                match pkg with
                | p :: _ =>
                    (Ret p, set_packageNames (<[path := pkg_Name p]> (packageNames d))
                              (set_packages (<[path := p]> (packages d)) d))
                | [] => (Fail (errorString ("package " +:+ path +:+ " is empty")), d)
                end
          end
      end
  end.

(** *** findImportIdent *)

(** imp.Path.Value[1 : len(imp.Path.Value)-1]: out of range below two
    bytes. *)
Definition path_of_literal (v : string) : outcome string :=
  if Nat.ltb (String.length v) 2 then Crash
  else Ret (take_bytes (String.length v - 2) (drop_bytes 1 v)).

Fixpoint findImportIdent_loop (imps : list ImportSpec) (name : string) : M string :=
  match imps with
  | [] =>
      fail (errorString ("package named " +:+ name +:+ " not found (may need to run "
                           +:+ dq +:+ "go build -i" +:+ dq +:+ ")"))
  | imp :: imps' =>
      do path <- lift (path_of_literal (imp_Path imp));
      match imp_Name imp with
      | Some n =>
          if String.eqb n name then ret path else findImportIdent_loop imps' name
      | None =>
          do s <- get (λ d, map_get (packageNames d) path);
          do s <- (if String.eqb s "" then
                     match build_Import env path with
                     | inr err => fail err
                     | inl p =>
                         modify (λ d, set_packageNames (<[path := bp_Name p]> (packageNames d)) d);;
                         ret (bp_Name p)
                     end
                   else ret s);
          if String.eqb s name then ret path else findImportIdent_loop imps' name
      end
  end.

Definition findImportIdent (file : File) (name : string) : M string :=
  findImportIdent_loop (Imports file) name.

(** *** typeLink *)
Definition with_element (name : string) : string :=
  if strings_HasSuffix name "-element" then name else name +:+ "-element".

Definition a_href (ID text : string) : string :=
  "<a href=" +:+ dq +:+ "#" +:+ html_EscapeString ID +:+ dq +:+ ">" +:+ text +:+ "</a>".

Definition map_key_error : string := "only maps with string keys are supported".

(** The key of a map type is the identifier string. *)
Definition string_key (key : Expr) : bool :=
  match key with
  | Ident _ n => String.eqb n "string"
  | _ => false
  end.

(** An error of the selector case: a line on os.Stderr, the qualified name
    as plain text. *)
Definition selector_fallback (x sel : string) (err : error) : M string :=
  write_stderr ("type " +:+ x +:+ "." +:+ sel +:+ ": " +:+ Error err +:+ nl);;
  ret (html_EscapeString (x +:+ "." +:+ sel)).

Fixpoint typeLink (t : Expr) (c : option context) (name suffix : string) : M string :=
  match t with
  | ArrayType _ elt =>
      do s <- typeLink elt c (with_element name) "s";
      ret ("array" +:+ suffix +:+ " of " +:+ s)
  | MapType _ key value =>
      if negb (string_key key) then ret ("(error: " +:+ map_key_error +:+ ")")
      else
        do s <- typeLink value c (with_element name) "s";
        ret ("object" +:+ suffix +:+ " of " +:+ s)
  | Ident _ n =>
      do ID <- renderLater n None c;
      if negb (String.eqb ID "") then ret (a_href ID (html_EscapeString n))
      else ret (html_EscapeString n)
  | StructType _ _ =>
      if strings_HasSuffix name "-element" then
        do ID <- renderLater name (Some t) c;
        ret (a_href ID (html_EscapeString name))
      else
        do ID <- renderLater ("of " +:+ name) (Some t) c;
        ret (a_href ID ("type of " +:+ html_EscapeString name))
  | SelectorExpr _ x sel =>
      match x with
      | Ident _ xn =>
          match c with
          | None => crash
          | Some c0 =>
              bind_err (findImportIdent (File_ c0) xn) (selector_fallback xn sel) (λ path,
              bind_err (parsedPackage path) (selector_fallback xn sel) (λ pkg,
              do r <- lift (findObject sel (Some pkg) path);
              match r with
              | (_, _, Some err) => selector_fallback xn sel err
              | (_, c, None) =>
                  do ID <- renderLater sel None c;
                  if negb (String.eqb ID "") then ret (a_href ID (html_EscapeString sel))
                  else ret (html_EscapeString (xn +:+ "." +:+ sel))
              end))
          end
      | _ =>
          write_stderr ("type " +:+ fmt_Sprint env t +:+ ": expected identifier before '.'" +:+ nl);;
          ret (html_EscapeString (fmt_Sprint env t))
      end
  | _ => ret (html_EscapeString (fmt_Sprint env t))
  end.

(** *** appendFields *)

(** The loop over f.Names: one row for every exported name that the tag
    does not hide. *)
Fixpoint appendNames (f : Field) (c : option context) (names : list string)
    (fields : list field) : M (list field) :=
  match names with
  | [] => ret fields
  | indent :: names' =>
      match tagToName indent (Tag f) with
      | Ret name =>
          do ty <- typeLink (Typ f) c name "";
          appendNames f c names'
            (fields ++ [mkfield (html_EscapeString name) ty
                          (html_EscapeString (strings_TrimSpace (Comment f)))])
      | Fail NotExported => appendNames f c names' fields
      | Fail err => fail err
      | Crash => crash
      | OutOfFuel => outOfFuel
      end
  end.

(** [n] bounds the depth of the calls that flatten embedded structs; the
    loop over the members is the inner recursion. *)
Fixpoint appendFields (n : nat) : list field → list Field → option context → M (list field) :=
  fix loop (fields : list field) (t : list Field) (c : option context) : M (list field) :=
    match t with
    | [] => ret fields
    | f :: t' =>
        do fields <-
          match Names f with
          | [] =>
              match Typ f with
              | Ident _ nm =>
                  match c with
                  | None => crash
                  | Some c0 =>
                      do r <- lift (findObject nm (Some (Package_ c0)) (Path c0));
                      match r with
                      | (_, _, Some err) => fail err
                      | (None, _, None) => ret fields
                      | (Some o, c, None) =>
                          match obj_Decl o with
                          | DeclTypeSpec t =>
                              match ts_Type t with
                              | StructType _ fs =>
                                  match n with
                                  | 0 => outOfFuel
                                  | S n' => appendFields n' fields fs c
                                  end
                              | _ => ret fields
                              end
                          | DeclOther => ret fields
                          end
                      end
                  end
              | _ => crash
              end
          | _ :: _ => ret fields
          end;
        do fields <- appendNames f c (Names f) fields;
        loop fields t' c
    end.

(** The first half of the loop body of appendFields, for one member: the
    fields of an embedded struct.  [appendFields_cons] below shows that the
    loop is this, then [appendNames], then the rest of the members. *)
Definition appendEmbedded (n : nat) (f : Field) (c : option context) (fields : list field)
  : M (list field) :=
  match Names f with
  | [] =>
      match Typ f with
      | Ident _ nm =>
          match c with
          | None => crash
          | Some c0 =>
              do r <- lift (findObject nm (Some (Package_ c0)) (Path c0));
              match r with
              | (_, _, Some err) => fail err
              | (None, _, None) => ret fields
              | (Some o, c, None) =>
                  match obj_Decl o with
                  | DeclTypeSpec t =>
                      match ts_Type t with
                      | StructType _ fs =>
                          match n with
                          | 0 => outOfFuel
                          | S n' => appendFields n' fields fs c
                          end
                      | _ => ret fields
                      end
                  | DeclOther => ret fields
                  end
              end
          end
      | _ => crash
      end
  | _ :: _ => ret fields
  end.

(** *** The table template *)
Definition table_row (f : field) : string :=
  nl +:+ "<tr>" +:+ nl +:+ "<td>" +:+ f_Name f +:+ "</td>" +:+ nl
     +:+ "<td>" +:+ f_Type f +:+ "</td>" +:+ nl
     +:+ "<td>" +:+ f_Description f +:+ "</td>" +:+ nl +:+ "</tr>" +:+ nl.

Definition table (Prefix S : string) (Fields : list field) : string :=
  nl +:+ "<p>JSON " +:+ Prefix +:+ "object" +:+ S +:+ " with the following fields:</p>" +:+ nl
     +:+ "<table>" +:+ nl +:+ "<tr>" +:+ nl +:+ "<th>Key name</th>" +:+ nl
     +:+ "<th>Value type</th>" +:+ nl +:+ "<th>Description</th>" +:+ nl +:+ "</tr>" +:+ nl
     +:+ concat_strings (map table_row Fields) +:+ nl +:+ "</table>" +:+ nl.

Definition no_fields (prefix s : string) : string :=
  "<p>JSON " +:+ prefix +:+ "object" +:+ s +:+ " with no fields.</p>" +:+ nl.

(** *** renderType1, renderType *)

(** The variable s of renderType1: the plural of object inside a container. *)
Definition plural (prefix : string) : string :=
  if String.eqb prefix "" then "" else "s".

Fixpoint renderType1 (n : nat) (typ : Expr) (c : option context) (prefix : string) : M unit :=
  match typ with
  | StructType _ t =>
      do fields <- appendFields n [] t c;
      let s := plural prefix in
      if Nat.ltb 0 (length fields) then write_b (table prefix s fields)
      else write_b (no_fields prefix s)
  | MapType _ key value =>
      if negb (string_key key) then fail (errorString map_key_error)
      else
        renderType1 n value c
          (if String.eqb prefix "" then "object of " else prefix +:+ " objects of ")
  | ArrayType _ elt =>
      renderType1 n elt c
        (if String.eqb prefix "" then "array of " else prefix +:+ " arrays of ")
  | _ => ret tt
  end.

Definition renderType (n : nat) (typ : TypeSpec) (c : option context) : M unit :=
  renderType1 n (ts_Type typ) c "".

(** *** renderTypeByName *)
Definition split_name (name : string) : string * string :=
  match strings_LastIndexByte name "."%char with
  | Some i => (take_bytes i name, drop_bytes (i + 1) name)
  | None => (".", name)
  end.

Definition renderTypeByName (n : nat) (name : string) : M unit :=
  let '(pkgName, name) := split_name name in
  do path <- get (λ d, map_get (imports d) pkgName);
  if String.eqb path "" then
    fail (errorString ("name " +:+ pkgName +:+ " mast be imported to access " +:+ name))
  else
    do pkg <- get (λ d, packages d !! path);
    do r <- lift (findObject name pkg path);
    match r with
    | (None, _, err) =>
        fail (errorString ("Type " +:+ name +:+ " error: "
                             +:+ match err with Some e => Error e | None => "<nil>" end))
    | (Some o, c, _) =>
        match obj_Decl o with
        | DeclTypeSpec t => renderType n t c
        | DeclOther => fail (errorString ("Object named " +:+ name +:+ " is not a type"))
        end
    end.

(** *** renderTypes

    The loop [for i := 0; i < len(d.renderQueue); i++] reads the length at
    every round, so items appended by a round are visited by later rounds.
    [fuel] bounds the number of rounds, [n] the depth of flattening. *)
Definition heading (q : queueElem) : string :=
  "<h4 id=" +:+ dq +:+ html_EscapeString (q_id q) +:+ dq +:+ ">Type "
            +:+ html_EscapeString (ts_Name (q_t q)) +:+ "</h4>" +:+ nl.

Fixpoint drain (fuel n i : nat) : M unit := λ d,
  match renderQueue d !! i with
  | None => (Ret tt, d)
  | Some q =>
      match fuel with
      | 0 => (OutOfFuel, d)
      | S fuel' =>
          (write_b (heading q);;
           renderType n (q_t q) (q_c q);;
           drain fuel' n (i + 1)) d
      end
  end.

Definition renderTypes (fuel : nat) (name : string) : M unit :=
  renderTypeByName fuel name;;
  drain fuel fuel 0;;
  modify (set_renderQueue []).

(** *** markdownEscapeString *)
Definition asciiPunctuation : string :=
  "!" +:+ dq +:+ "#$%&'()*+,-./:;<=>?@[" +:+ bs +:+ "]^_`{|}~.".

Definition isASCIIPunctuation (c : ascii) : bool := contains_byte c asciiPunctuation.

Fixpoint markdownEscapeString (s : string) : string :=
  match s with
  | EmptyString => EmptyString
  | String c s' =>
      if Nat.ltb (nat_of_ascii c) 128 && isASCIIPunctuation c
      then String "092"%char (String c (markdownEscapeString s'))
      else String c (markdownEscapeString s')
  end.

(** *** The functions of the template: title, import, input, output *)
Definition setTitle (t : string) : M string :=
  modify (set_title t);; ret "".

Definition importPkg (name path : string) : M string :=
  do old <- get (λ d, map_get (imports d) name);
  if negb (String.eqb old "") then fail (errorString ("name " +:+ name +:+ " already imported"))
  else
    parsedPackage path;;
    modify (λ d, set_imports (<[name := path]> (imports d)) d);;
    ret "".

Definition input (fuel : nat) (name : string) : M string :=
  modify (set_b "");;
  write_b ("### Input (" +:+ markdownEscapeString name +:+ ")" +:+ nl +:+ "<div>" +:+ nl);;
  renderTypes fuel name;;
  write_b ("</div>" +:+ nl);;
  get b.

Definition output (fuel : nat) (name : string) : M string :=
  modify (set_b "");;
  let ident :=
    match strings_LastIndexByte name "."%char with
    | Some i => drop_bytes (i + 1) name
    | None => name
    end in
  write_b ("### Output (" +:+ markdownEscapeString ident +:+ ")" +:+ nl +:+ "<div>" +:+ nl);;
  renderTypes fuel name;;
  write_b ("</div>" +:+ nl);;
  get b.

(** *** The template of a document

    Executing the template calls the functions of its actions from top to
    bottom, writes what they return and stops at the first error.  The
    text between the actions plays no part and is left out. *)
Inductive action :=
| a_title (t : string)
| a_import (name path : string)
| a_input (name : string)
| a_output (name : string).

Definition call (fuel : nat) (a : action) : M string :=
  match a with
  | a_title t => setTitle t
  | a_import name path => importPkg name path
  | a_input name => input fuel name
  | a_output name => output fuel name
  end.

Fixpoint ExecuteTemplate (fuel : nat) (doc : list action) : M (list string) :=
  match doc with
  | [] => ret []
  | a :: doc' =>
      do s <- call fuel a;
      do out <- ExecuteTemplate fuel doc';
      ret (s :: out)
  end.

End Generator.

(** ** Notions used by the statements *)

Definition is_ident (e : Expr) : bool :=
  match e with Ident _ _ => true | _ => false end.

(** [inside e root]: following elements of arrays and values of maps with
    the key string from [root] leads to [e].  The type switches of
    renderType1 and typeLink descend this way. *)
Inductive inside (e : Expr) : Expr → Prop :=
| inside_here : inside e e
| inside_array p elt : inside e elt → inside e (ArrayType p elt)
| inside_map p key value :
    string_key key = true → inside e value → inside e (MapType p key value).

(** A member that yields no row: it has names, and tagToName hides each of
    them (not exported, or the tag names it "-"). *)
Definition suppressed (f : Field) : bool :=
  match Names f with
  | [] => false
  | names =>
      forallb (λ indent, match tagToName indent (Tag f) with
                         | Fail NotExported => true
                         | _ => false
                         end) names
  end.

(** [keeps d d']: the anchors recorded in d.rendered are still recorded,
    unchanged, in d'. *)
Definition keeps (d d' : JSONDoc) : Prop :=
  ∀ k, map_get (rendered d) k ≠ "" → rendered d' !! k = rendered d !! k.

(** [extends d d']: the queue of d' is the queue of d with items appended:
    every item of d is at its index in d'. *)
Definition extends (d d' : JSONDoc) : Prop :=
  ∃ l, renderQueue d' = (renderQueue d ++ l)%list.

(** A method relates the state it starts in to the state it ends in,
    whatever its outcome. *)
Definition preserving (R : relation JSONDoc) {A} (m : M A) : Prop := ∀ d, R d (m d).2.

(** The states of one run: a step is a call of a method of the generator,
    or a write to the buffer or a reset of the queue between two calls. *)
Inductive step (env : GoEnv) : JSONDoc → JSONDoc → Prop :=
| step_renderLater name t c d : step env d (renderLater name t c d).2
| step_parsedPackage path d : step env d (parsedPackage env path d).2
| step_findImportIdent file name d : step env d (findImportIdent env file name d).2
| step_typeLink t c name suffix d : step env d (typeLink env t c name suffix d).2
| step_appendFields n fields t c d : step env d (appendFields env n fields t c d).2
| step_renderType1 n typ c prefix d : step env d (renderType1 env n typ c prefix d).2
| step_renderTypes fuel name d : step env d (renderTypes env fuel name d).2
| step_call fuel a d : step env d (call env fuel a d).2
| step_set_b s d : step env d (set_b s d)
| step_set_renderQueue d : step env d (set_renderQueue [] d).

Definition reach (env : GoEnv) : JSONDoc → JSONDoc → Prop := rtc (step env).

(** ** Notions used by the further properties *)

(** [imports_kept d d']: an alias imported in d is imported, with the same
    path, in d'. *)
Definition imports_kept (d d' : JSONDoc) : Prop :=
  ∀ alias, map_get (imports d) alias ≠ "" → imports d' !! alias = imports d !! alias.

(** [packages_kept d d']: a package loaded in d is the package loaded under
    the same path in d'. *)
Definition packages_kept (d d' : JSONDoc) : Prop :=
  ∀ path pkg, packages d !! path = Some pkg → packages d' !! path = Some pkg.

(** [tables_kept d d']: the imports are the same and the loaded packages
    are kept. *)
Definition tables_kept (d d' : JSONDoc) : Prop :=
  imports d' = imports d ∧ packages_kept d d'.

(** Every imported alias has its package loaded. *)
Definition imports_loaded (d : JSONDoc) : Prop :=
  ∀ alias, map_get (imports d) alias ≠ "" →
           is_Some (packages d !! map_get (imports d) alias).

(** [counters_grow d d']: no counter of a base name is smaller in d'. *)
Definition counters_grow (d d' : JSONDoc) : Prop :=
  ∀ base, (counter d base ≤ counter d' base)%nat.

(** [title_same d d'] and [appended d d']: the title is unchanged; the
    buffer of d' is the buffer of d with text appended. *)
Definition title_same (d d' : JSONDoc) : Prop := title d' = title d.

Definition appended (d d' : JSONDoc) : Prop := ∃ s, b d' = b d +:+ s.

(** The names for which the loop of markdownEscapeString, which ranges over
    the runes of the name, visits the bytes one by one: the names of ASCII
    bytes. *)
Definition ascii_only (s : string) : bool :=
  forallb (λ c, Nat.ltb (nat_of_ascii c) 128) (list_ascii_of_string s).

(** How a call can end without a result: with an error, with a run-time
    panic, or (in the model only) with the fuel used up. *)
Inductive failure :=
| fError (e : error)
| fPanic
| fFuel.

Definition failure_of {A} (o : outcome A) : option failure :=
  match o with
  | Ret _ => None
  | Fail e => Some (fError e)
  | Crash => Some fPanic
  | OutOfFuel => Some fFuel
  end.

(** [only F m]: whenever [m] ends without a result, it does so in one of
    the ways [F]. *)
Definition only (F : failure → Prop) {A} (m : M A) : Prop :=
  ∀ d f, failure_of (m d).1 = Some f → F f.

(** The errors with which the rendering of a block ends. *)
Inductive render_error : error → Prop :=
| re_syntax : render_error ErrSyntax
| re_map_key : render_error (errorString map_key_error)
| re_not_found name path :
    render_error (errorString ("identifier " +:+ name +:+ " not found in package " +:+ path))
| re_not_imported alias name :
    render_error (errorString ("name " +:+ alias +:+ " mast be imported to access " +:+ name))
| re_no_object name :
    render_error (errorString ("Type " +:+ name +:+ " error: <nil>"))
| re_no_identifier name path :
    render_error (errorString ("Type " +:+ name +:+ " error: " +:+ "identifier " +:+ name
                                 +:+ " not found in package " +:+ path))
| re_not_type name :
    render_error (errorString ("Object named " +:+ name +:+ " is not a type")).

(** The ways in which the collecting of the rows of a struct, and the
    rendering of a type, end without a result. *)
Definition fields_failure (f : failure) : Prop :=
  f = fPanic ∨ f = fFuel ∨ f = fError ErrSyntax
  ∨ ∃ name path, f = fError (errorString ("identifier " +:+ name +:+ " not found in package "
                                            +:+ path)).

Definition type_failure (f : failure) : Prop :=
  fields_failure f ∨ f = fError (errorString map_key_error).

(** The result of a call that collects rows, with the rows [fields] put
    before the rows it returns. *)
Definition prepend (fields : list field) (r : outcome (list field) * JSONDoc)
  : outcome (list field) * JSONDoc :=
  match r with
  | (Ret rows, d) => (Ret (fields ++ rows)%list, d)
  | r => r
  end.

(** [accumulates m]: a call of [m] with the rows collected so far does what
    the call with no rows does, and returns its rows after them. *)
Definition accumulates (m : list field → M (list field)) : Prop :=
  ∀ fields d, m fields d = prepend fields (m [] d).

(** Two calls that agree unless the second runs out of fuel. *)
Definition enough {A} (m' m : M A) : Prop :=
  ∀ d, (m d).1 ≠ OutOfFuel → m' d = m d.

(** The keys of the rows of a member: the escaped display name of every
    member name that tagToName does not hide. *)
Definition row_key (f : Field) (indent : string) : list string :=
  match tagToName indent (Tag f) with
  | Ret name => [html_EscapeString name]
  | _ => []
  end.

Definition row_keys (f : Field) : list string := flat_map (row_key f) (Names f).


(** An expression that the type switch of renderType1 sends to no case. *)
Definition plain (e : Expr) : bool :=
  match e with
  | StructType _ _ | MapType _ _ _ | ArrayType _ _ => false
  | _ => true
  end.

(** ** An example package and documents over it

<<
    package p
    type size struct { Length float64 `json:"lenght"`; Width float64 }
    type helloInput struct { Name string `json:"test"`; A, B int; Size size `json:"size"` }
    type P struct { C struct{ X int } }
    type Q struct { C struct{ X int } }
    type D struct { X []struct{ D } }
    type K struct { M map[int]string }
    type U struct { F Foo }
    type E struct { Missing; A int }
    type S struct { *size }
    type hidden struct { a int; B int `json:"-"` }
    type O struct { Error string `json:",omitempty"` }
    type ids []int
    type N struct { ids; error; W int }
    type T struct { Children []T }
>>
*)
Module example.

Definition json (s : string) : option string :=
  Some ("`json:" +:+ dq +:+ s +:+ dq +:+ "`").

Definition t_size : Expr :=
  StructType 100 [mkField ["Length"] (Ident 101 "float64") (json "lenght") "";
                  mkField ["Width"] (Ident 102 "float64") None ""].

Definition t_helloInput : Expr :=
  StructType 110 [mkField ["Name"] (Ident 111 "string") (json "test") "";
                  mkField ["A"; "B"] (Ident 112 "int") None "";
                  mkField ["Size"] (Ident 113 "size") (json "size") ""].

Definition t_P_C : Expr := StructType 121 [mkField ["X"] (Ident 122 "int") None ""].
Definition t_P : Expr := StructType 120 [mkField ["C"] t_P_C None ""].

Definition t_Q_C : Expr := StructType 131 [mkField ["X"] (Ident 132 "int") None ""].
Definition t_Q : Expr := StructType 130 [mkField ["C"] t_Q_C None ""].

Definition t_D_X : Expr := StructType 142 [mkField [] (Ident 143 "D") None ""].
Definition t_D : Expr := StructType 140 [mkField ["X"] (ArrayType 141 t_D_X) None ""].

Definition t_K_M : Expr := MapType 151 (Ident 152 "int") (Ident 153 "string").
Definition t_K : Expr := StructType 150 [mkField ["M"] t_K_M None ""].

Definition t_U : Expr := StructType 160 [mkField ["F"] (Ident 161 "Foo") None ""].

Definition t_E : Expr :=
  StructType 170 [mkField [] (Ident 171 "Missing") None "";
                  mkField ["A"] (Ident 172 "int") None ""].

Definition f_S_star : Field := mkField [] (StarExpr 181 (Ident 182 "size")) None "".
Definition t_S : Expr := StructType 180 [f_S_star].

Definition t_hidden : Expr :=
  StructType 190 [mkField ["a"] (Ident 191 "int") None "";
                  mkField ["B"] (Ident 192 "int") (json "-") ""].

Definition t_O : Expr :=
  StructType 200 [mkField ["Error"] (Ident 201 "string") (json ",omitempty") ""].

Definition t_ids : Expr := ArrayType 210 (Ident 211 "int").

Definition t_N : Expr :=
  StructType 220 [mkField [] (Ident 221 "ids") None "";
                  mkField [] (Ident 222 "error") None "";
                  mkField ["W"] (Ident 223 "int") None ""].

Definition t_T : Expr :=
  StructType 230 [mkField ["Children"] (ArrayType 231 (Ident 232 "T")) None ""].

Definition decl (p : ptr) (name : string) (t : Expr) : string * Object :=
  (name, mkObject p (DeclTypeSpec (mkTypeSpec name t))).

Definition file : File :=
  mkFile (list_to_map
            [decl 1 "size" t_size; decl 2 "helloInput" t_helloInput; decl 3 "P" t_P;
             decl 4 "Q" t_Q; decl 5 "D" t_D; decl 6 "K" t_K; decl 7 "U" t_U;
             decl 8 "E" t_E; decl 9 "S" t_S; decl 10 "hidden" t_hidden;
             decl 11 "O" t_O; decl 12 "ids" t_ids; decl 13 "N" t_N; decl 14 "T" t_T])
         [].

Definition pkg : Package := mkPackage "p" [("p.go", file)].

(** A tool chain that knows the package under the import path p. *)
Definition env : GoEnv :=
  mkGoEnv
    (λ path, if String.eqb path "p" then inl (mkBuildPackage "p" "/go/src")
             else inr (errorString ("cannot find package " +:+ path)))
    (λ root path, if String.eqb path "p" then inl [pkg]
                  else inr (errorString ("open " +:+ path +:+ ": no such file or directory")))
    (λ _, "&{}").

Definition ctx : context := mkContext "p" pkg file.

(** The state after the action import "." "p". *)
Definition imported : JSONDoc :=
  set_imports {["." := "p"]}
    (set_packageNames {["p" := "p"]} (set_packages {["p" := pkg]} NewJSONDoc)).

(** The items that the struct of D.X puts in the queue. *)
Definition cyc_item (q : queueElem) : Prop :=
  ts_Type (q_t q) = t_D_X ∧ q_c q = Some ctx.

(** A call that returns and has appended one such item. *)
Definition grows {A} (r : outcome A * JSONDoc) (d : JSONDoc) : Prop :=
  ∃ a d' q, r = (Ret a, d') ∧ renderQueue d' = (renderQueue d ++ [q])%list ∧ cyc_item q.

(** The members of D. *)
Definition D_fields : list Field := [mkField ["X"] (ArrayType 141 t_D_X) None ""].

End example.

Module example_imports.

(** A file of another package with the import declarations
<<
    import (
        f "fmt"
        "p"
    )
>>
*)
Definition file : File :=
  mkFile ∅ [mkImportSpec (Some "f") (dq +:+ "fmt" +:+ dq); mkImportSpec None (dq +:+ "p" +:+ dq)].

End example_imports.

Module example_selector.

(** The context of a file of a package q that imports p. *)
Definition ctx : context :=
  mkContext "q" (mkPackage "q" [("q.go", example_imports.file)]) example_imports.file.

(** The members of helloInput. *)
Definition hello_fields : list Field :=
  [mkField ["Name"] (Ident 111 "string") (example.json "test") "";
   mkField ["A"; "B"] (Ident 112 "int") None "";
   mkField ["Size"] (Ident 113 "size") (example.json "size") ""].

End example_selector.

Module example_files.




(** A package in which two files declare T, as two objects. *)
Definition o_T1 : Object := mkObject 1 (DeclTypeSpec (mkTypeSpec "T" example.t_T)).
Definition o_T2 : Object := mkObject 2 (DeclTypeSpec (mkTypeSpec "T" example.t_T)).
Definition file_1 : File := mkFile {["T" := o_T1]} [].
Definition file_2 : File := mkFile {["T" := o_T2]} [].
Definition ctx_12 : context :=
  mkContext "p" (mkPackage "p" [("a.go", file_1); ("b.go", file_2)]) file_1.
Definition ctx_21 : context :=
  mkContext "p" (mkPackage "p" [("b.go", file_2); ("a.go", file_1)]) file_1.

End example_files.

(** ** Equations of the monad and of the loops *)
Section Equations.

Context (env : GoEnv).

Lemma bind_eq {A B} (m : M A) (k : A → M B) d :
  bind m k d = match m d with
               | (Ret a, d') => k a d'
               | (Fail e, d') => (Fail e, d')
               | (Crash, d') => (Crash, d')
               | (OutOfFuel, d') => (OutOfFuel, d')
               end.
Proof. reflexivity. Qed.

Lemma bind_assoc {A B C} (m : M A) (k : A → M B) (h : B → M C) d :
  bind (bind m k) h d = bind m (λ a, bind (k a) h) d.
Proof. unfold bind. destruct (m d) as [[a| | |] d']; reflexivity. Qed.

Lemma appendFields_nil n fields c : appendFields env n fields [] c = ret fields.
Proof. destruct n; reflexivity. Qed.

Lemma appendFields_cons n fields f t c :
  appendFields env n fields (f :: t) c =
  (do fields <- appendEmbedded env n f c fields;
   do fields <- appendNames env f c (Names f) fields;
   appendFields env n fields t c).
Proof. destruct n; reflexivity. Qed.

Lemma appendFields_app n l1 : ∀ fields l2 c d,
  appendFields env n fields (l1 ++ l2) c d =
  (do fields <- appendFields env n fields l1 c; appendFields env n fields l2 c) d.
Proof.
  induction l1 as [|f l1 IH]; intros fields l2 c d.
  - simpl. rewrite appendFields_nil. reflexivity.
  - simpl. rewrite !appendFields_cons, bind_assoc.
    rewrite 2!(bind_eq (appendEmbedded env n f c fields)).
    destruct (appendEmbedded env n f c fields d) as [[a| | |] d1]; try reflexivity.
    rewrite bind_assoc, 2!(bind_eq (appendNames env f c (Names f) a)).
    destruct (appendNames env f c (Names f) a d1) as [[a'| | |] d2]; try reflexivity.
    apply IH.
Qed.

(** A member all of whose names are hidden adds no row and leaves the
    state alone. *)
Lemma appendNames_hidden f c names : ∀ fields d,
  forallb (λ indent, match tagToName indent (Tag f) with
                     | Fail NotExported => true
                     | _ => false
                     end) names = true →
  appendNames env f c names fields d = (Ret fields, d).
Proof.
  induction names as [|indent names IH]; intros fields d H; [reflexivity|].
  simpl in H. apply andb_prop in H as [H1 H2]. simpl.
  destruct (tagToName indent (Tag f)) as [?|[| |?]| |]; try discriminate.
  now apply IH.
Qed.

Lemma appendFields_suppressed n t : ∀ fields c d,
  forallb suppressed t = true →
  appendFields env n fields t c d = (Ret fields, d).
Proof.
  induction t as [|f t IH]; intros fields c d H.
  - now rewrite appendFields_nil.
  - simpl in H. apply andb_prop in H as [H1 H2].
    rewrite appendFields_cons, bind_eq. unfold appendEmbedded, suppressed in *.
    destruct (Names f) as [|x l] eqn:E; [discriminate|].
    cbn [ret]. rewrite bind_eq, (appendNames_hidden _ _ _ _ _ H1). now apply IH.
Qed.

End Equations.

(** The rows of helloInput: the tag gives the key of Name, the two names
    of one member give two rows, and the declared type of Size is linked
    and queued. *)
Example helloInput_rows :
  ∃ d, appendFields example.env 0 []
         (match example.t_helloInput with StructType _ fs => fs | _ => [] end)
         (Some example.ctx) example.imported
       = (Ret [mkfield "&#34;test&#34;" "string" ""; mkfield "&#34;A&#34;" "int" "";
               mkfield "&#34;B&#34;" "int" "";
               mkfield "&#34;size&#34;" (a_href "type-size-1" "size") ""], d)
       ∧ map q_id (renderQueue d) = ["type-size-1"].
Proof. eexists. split; vm_compute; reflexivity. Qed.

(** ** The table or the notice (C7), the panic of flattening (C10) *)
Section Struct.

Context (env : GoEnv).

(** C7.  A struct whose members are all hidden, or that has none, is
    rendered as the notice "JSON ...object... with no fields.", whatever
    the fuel.  More generally, whatever field list appendFields returns,
    renderType1 appends the notice when the list is empty and the table,
    which then has a row, only when it is not; and when appendFields does
    not return a list, renderType1 writes nothing.  So no table without
    rows is written. *)
Theorem renderType1_no_fields_notice n p t c prefix d :
  (forallb suppressed t = true →
   renderType1 env n (StructType p t) c prefix d
   = (Ret tt, set_b (b d +:+ no_fields prefix (plural prefix)) d))
  ∧ (∀ fields d',
       appendFields env n [] t c d = (Ret fields, d') →
       renderType1 env n (StructType p t) c prefix d =
       (Ret tt, set_b (b d' +:+ match fields with
                               | [] => no_fields prefix (plural prefix)
                               | _ :: _ => table prefix (plural prefix) fields
                               end) d'))
  ∧ match appendFields env n [] t c d with
    | (Ret _, _) => True
    | (_, d') => (renderType1 env n (StructType p t) c prefix d).2 = d'
    end.
Proof.
  assert (∀ fields d',
            appendFields env n [] t c d = (Ret fields, d') →
            renderType1 env n (StructType p t) c prefix d =
            (Ret tt, set_b (b d' +:+ match fields with
                                    | [] => no_fields prefix (plural prefix)
                                    | _ :: _ => table prefix (plural prefix) fields
                                    end) d')) as Hgen.
  { intros fields d' H. cbn [renderType1]. rewrite bind_eq, H. destruct fields; reflexivity. }
  split; [|split; [exact Hgen|]].
  - intros H. apply (Hgen [] d). now apply appendFields_suppressed.
  - cbn [renderType1]. rewrite bind_eq.
    destruct (appendFields env n [] t c d) as [[?| | |] ?]; trivial.
Qed.

(** C10.  An embedded member whose type is not a bare identifier makes
    flattening panic: once the members before it have been processed, the
    type assertion f.Type.( *ast.Ident) fails and the call crashes, it
    neither returns an error nor passes over the member. *)
Theorem embedded_not_ident_panics n p pre f post c prefix d fields d' :
  Names f = [] → is_ident (Typ f) = false →
  appendFields env n [] pre c d = (Ret fields, d') →
  renderType1 env n (StructType p (pre ++ f :: post)) c prefix d = (Crash, d').
Proof.
  intros Hn Hi Hpre. cbn [renderType1].
  rewrite bind_eq, appendFields_app, bind_eq, Hpre, appendFields_cons, bind_eq.
  unfold appendEmbedded. rewrite Hn. destruct (Typ f); try discriminate; reflexivity.
Qed.

End Struct.

(** The struct hidden of the example: both members are hidden, the notice
    is written. *)
Lemma renderType1_no_fields_notice_witness :
  renderType1 example.env 0 example.t_hidden (Some example.ctx) "" example.imported =
    (Ret tt, set_b ("<p>JSON object with no fields.</p>" +:+ nl) example.imported).
Proof.
  apply (renderType1_no_fields_notice example.env 0 190 _ (Some example.ctx) "" example.imported).
  vm_compute. reflexivity.
Defined.

Lemma embedded_not_ident_panics_witness :
  renderType1 example.env 3 example.t_S (Some example.ctx) "" example.imported
  = (Crash, example.imported).
Proof.
  apply (embedded_not_ident_panics example.env 3 180 [] example.f_S_star [] (Some example.ctx) ""
           example.imported [] example.imported); reflexivity.
Defined.


(** ** The name of a member (C8) *)

(** C8.  For the exported member Error with the tag json:",omitempty" the
    first component of the annotation is empty, and tagToName returns the
    quoted empty component with the suffix (optional), not the quoted
    member name: the name of the member is used only when the whole json
    value is empty. *)
Theorem tagToName_empty_first_component :
  tagToName "Error" (example.json ",omitempty") = Ret (strconv_Quote "" +:+ " (optional)")
  ∧ strconv_Quote "" +:+ " (optional)" ≠ strconv_Quote "Error" +:+ " (optional)"
  ∧ tagToName "Error" (example.json "") = Ret (strconv_Quote "Error").
Proof. repeat split; try reflexivity. discriminate. Qed.

(** ** Maps whose key is not string (C4) *)


Lemma append_assoc (s1 s2 s3 : string) : (s1 +:+ s2) +:+ s3 = s1 +:+ (s2 +:+ s3).
Proof.
  induction s1 as [|a s1 IH]; [reflexivity|].
  change (String a ((s1 +:+ s2) +:+ s3) = String a (s1 +:+ (s2 +:+ s3))). now rewrite IH.
Qed.






(** ** Names that are not found (C5) *)




(** ** Embedded members that are passed over (C6) *)



(** The struct N of the example embeds ids, a slice type, and error, a
    built-in: both are passed over, the table has the one row of W. *)
Example embedded_skipped_ex :
  ∃ d, appendFields example.env 0 [] (match example.t_N with StructType _ fs => fs | _ => [] end)
         (Some example.ctx) example.imported
       = (Ret [mkfield "&#34;W&#34;" "int" ""], d).
Proof. eexists. vm_compute. reflexivity. Qed.

(** ** Relations that every method preserves

    A preorder on states that holds across the writes to the buffer, to
    os.Stderr and to the package tables, and across renderLater, holds
    across typeLink, appendFields, renderType1 and the queue loop. *)
Section Preserved.

Context (env : GoEnv) (R : relation JSONDoc) `{!PreOrder R}.

Hypothesis R_b : ∀ s d, R d (set_b s d).
Hypothesis R_stderr : ∀ s d, R d (set_stderr s d).
Hypothesis R_packages : ∀ v d, R d (set_packages v d).
Hypothesis R_packageNames : ∀ v d, R d (set_packageNames v d).
Hypothesis R_renderLater : ∀ name t c, preserving R (renderLater name t c).

Lemma preserving_ret {A} (a : A) : preserving R (ret a).
Proof. intros d. reflexivity. Qed.

Lemma preserving_fail {A} e : preserving R (@fail A e).
Proof. intros d. reflexivity. Qed.

Lemma preserving_crash {A} : preserving R (@crash A).
Proof. intros d. reflexivity. Qed.

Lemma preserving_outOfFuel {A} : preserving R (@outOfFuel A).
Proof. intros d. reflexivity. Qed.

Lemma preserving_lift {A} (o : outcome A) : preserving R (lift o).
Proof. intros d. reflexivity. Qed.

Lemma preserving_get {A} (f : JSONDoc → A) : preserving R (get f).
Proof. intros d. reflexivity. Qed.

Lemma preserving_modify f : (∀ d, R d (f d)) → preserving R (modify f).
Proof. intros H d. apply H. Qed.

Lemma preserving_bind {A B} (m : M A) (k : A → M B) :
  preserving R m → (∀ a, preserving R (k a)) → preserving R (bind m k).
Proof.
  intros Hm Hk d. unfold bind. specialize (Hm d).
  destruct (m d) as [[a| | |] d']; simpl in Hm; try exact Hm.
  etrans; [exact Hm|apply Hk].
Qed.

Lemma preserving_bind_err {A B} (m : M A) (h : error → M B) (k : A → M B) :
  preserving R m → (∀ e, preserving R (h e)) → (∀ a, preserving R (k a)) →
  preserving R (bind_err m h k).
Proof.
  intros Hm Hh Hk d. unfold bind_err. specialize (Hm d).
  destruct (m d) as [[a| | |] d']; simpl in Hm; try exact Hm.
  - etrans; [exact Hm|apply Hk].
  - etrans; [exact Hm|apply Hh].
Qed.

Lemma preserving_write_b s : preserving R (write_b s).
Proof. apply preserving_modify. intros d. apply R_b. Qed.

Lemma preserving_write_stderr s : preserving R (write_stderr s).
Proof. apply preserving_modify. intros d. apply R_stderr. Qed.

Create HintDb pres.

Hint Resolve preserving_ret preserving_fail preserving_crash preserving_outOfFuel
  preserving_lift preserving_get preserving_write_b preserving_write_stderr
  R_renderLater : pres.

(** The proof of [preserving] for a method follows its text. *)
Ltac pres :=
  repeat first
    [ assumption
    | solve [auto with pres]
    | apply preserving_bind; [|intros ?]
    | apply preserving_bind_err; [|intros ?|intros ?]
    | apply preserving_modify; intros ?; solve [auto]
    | match goal with
      | |- preserving _ (match ?x with _ => _ end) => destruct x
      | |- preserving _ (let '(_, _) := ?x in _) => destruct x
      end ].

Lemma preserving_parsedPackage path : preserving R (parsedPackage env path).
Proof.
  intros d. unfold parsedPackage.
  destruct (packages d !! path); [reflexivity|].
  destruct (build_Import env path); [|reflexivity].
  destruct (parser_ParseDir env _ path) as [l|]; [|reflexivity].
  destruct (Nat.ltb 1 (length l)); [reflexivity|].
  destruct l; [reflexivity|]. cbn [snd]. etrans; [apply R_packages|apply R_packageNames].
Qed.

Lemma preserving_findImportIdent file name : preserving R (findImportIdent env file name).
Proof.
  unfold findImportIdent. induction (Imports file) as [|imp imps IH]; cbn [findImportIdent_loop].
  - pres.
  - apply preserving_bind; [pres|]. intros path.
    destruct (imp_Name imp); [destruct (String.eqb _ _); pres|].
    apply preserving_bind; [pres|]. intros s.
    apply preserving_bind.
    + destruct (String.eqb s ""); [|pres]. destruct (build_Import env path); pres.
    + intros s'. destruct (String.eqb s' name); pres.
Qed.

Lemma preserving_selector_fallback x sel err : preserving R (selector_fallback x sel err).
Proof. unfold selector_fallback. pres. Qed.

Hint Resolve preserving_parsedPackage preserving_findImportIdent
  preserving_selector_fallback : pres.

Lemma preserving_typeLink t : ∀ c name suffix, preserving R (typeLink env t c name suffix).
Proof.
  induction t; intros c name suffix; cbn [typeLink]; solve [pres].
Qed.

Lemma preserving_appendNames f c names :
  ∀ fields, preserving R (appendNames env f c names fields).
Proof.
  induction names as [|indent names IH]; intros fields; cbn [appendNames]; [pres|].
  pose proof preserving_typeLink.
  destruct (tagToName indent (Tag f)) as [name|[| |?]| |]; solve [pres].
Qed.

Lemma preserving_appendFields n : ∀ t fields c, preserving R (appendFields env n fields t c).
Proof.
  induction n as [n IHn] using lt_wf_ind.
  induction t as [|f t IHt]; intros fields c.
  - rewrite appendFields_nil. pres.
  - rewrite appendFields_cons.
    assert (preserving R (appendEmbedded env n f c fields)) as He.
    { unfold appendEmbedded. destruct n as [|n']; [solve [pres]|].
      pose proof (IHn n' (Nat.lt_succ_diag_r n')). solve [pres]. }
    pose proof preserving_appendNames. solve [pres].
Qed.

Lemma preserving_renderType1 n typ : ∀ c prefix, preserving R (renderType1 env n typ c prefix).
Proof.
  pose proof (preserving_appendFields n).
  induction typ; intros c prefix; cbn [renderType1]; solve [pres].
Qed.

Lemma preserving_drain fuel n : ∀ i, preserving R (drain env fuel n i).
Proof.
  induction fuel as [|fuel IH]; intros i d; cbn [drain];
    destruct (renderQueue d !! i) as [q|]; try reflexivity.
  revert d. change (preserving R (write_b (heading q);; renderType env n (q_t q) (q_c q);;
                                  drain env fuel n (i + 1))).
  pose proof (preserving_renderType1 n). unfold renderType. solve [pres].
Qed.

(** The methods that also empty the queue and set the title and the
    imports. *)
Hypothesis R_renderQueue : ∀ d, R d (set_renderQueue [] d).
Hypothesis R_title : ∀ v d, R d (set_title v d).
Hypothesis R_imports : ∀ v d, R d (set_imports v d).

Lemma preserving_renderTypes fuel name : preserving R (renderTypes env fuel name).
Proof.
  pose proof (preserving_renderType1 fuel). pose proof (preserving_drain fuel fuel).
  unfold renderTypes, renderTypeByName, renderType. solve [pres].
Qed.

Lemma preserving_call fuel a : preserving R (call env fuel a).
Proof.
  pose proof (preserving_renderTypes fuel).
  destruct a; cbn [call]; unfold setTitle, importPkg, input, output; solve [pres].
Qed.

End Preserved.

(** ** The anchors recorded in d.rendered are kept *)
Section Keeps.

Context (env : GoEnv).

Global Instance keeps_preorder : PreOrder keeps.
Proof.
  split.
  - intros d k _. reflexivity.
  - intros d1 d2 d3 H12 H23 k Hk. rewrite H23, H12; auto.
    unfold map_get. rewrite H12; auto.
Qed.





End Keeps.

(** ** The queue is extended, in order, while it is drained

    These are the parts of the queue discipline that hold of the loop of
    renderTypes: a round handles the item at its index, items are only
    appended, so every item keeps its index and is handled after the items
    before it, and a call of renderTypes that returns leaves the queue
    empty. *)
Section Queue.

Context (env : GoEnv).

Global Instance extends_preorder : PreOrder extends.
Proof.
  split.
  - intros d. exists []. now rewrite app_nil_r.
  - intros d1 d2 d3 [l1 H1] [l2 H2]. exists (l1 ++ l2)%list. now rewrite H2, H1, app_assoc.
Qed.

Lemma extends_same d d' : renderQueue d' = renderQueue d → extends d d'.
Proof. intros E. exists []. now rewrite app_nil_r. Qed.

Lemma extends_renderLater name t c : preserving extends (renderLater name t c).
Proof.
  intros d. unfold renderLater. destruct t as [t|]; [now eexists|].
  destruct c as [c0|]; [|reflexivity].
  unfold bind, lift, get. destruct (findObject _ _ _) as [[[[o|] c] [err|]]| | |];
    try reflexivity; try (now apply extends_same).
  cbv beta iota. destruct (negb _); [reflexivity|].
  destruct (obj_Decl o) as [ts|]; [|reflexivity]. now eexists.
Qed.

Lemma drain_end fuel n i d :
  renderQueue d !! i = None → drain env fuel n i d = (Ret tt, d).
Proof. intros H. destruct fuel; cbn [drain]; now rewrite H. Qed.

Lemma drain_round fuel n i d q :
  renderQueue d !! i = Some q →
  drain env (S fuel) n i d
  = (write_b (heading q);; renderType env n (q_t q) (q_c q);; drain env fuel n (i + 1)) d.
Proof. intros H. cbn [drain]. now rewrite H. Qed.

Lemma extends_renderType n typ c : preserving extends (renderType env n typ c).
Proof.
  apply (preserving_renderType1 env extends); try apply extends_renderLater;
    intros; now apply extends_same.
Qed.

Lemma extends_drain fuel n i : preserving extends (drain env fuel n i).
Proof.
  apply (preserving_drain env extends); try apply extends_renderLater;
    intros; now apply extends_same.
Qed.

(** An item of the queue keeps its index across a round and across the
    rest of the loop. *)
Lemma extends_lookup d d' i q :
  extends d d' → renderQueue d !! i = Some q → renderQueue d' !! i = Some q.
Proof. intros [l ->] H. now apply lookup_app_l_Some. Qed.

Lemma renderTypes_returns_empty fuel name d d' :
  renderTypes env fuel name d = (Ret tt, d') → renderQueue d' = [].
Proof.
  unfold renderTypes, bind. destruct (renderTypeByName env fuel name d) as [[[]| | |] d1];
    try discriminate.
  destruct (drain env fuel fuel 0 d1) as [[[]| | |] d2]; try discriminate.
  unfold modify. now intros [= <-].
Qed.

End Queue.

(** ** Anchors and their counters (C9) *)

Lemma counter_link_insert s t d base :
  (counter d base ≤ counter (set_links (link_insert s t d) d) base ≤ counter d base + 1)%nat.
Proof.
  unfold counter, link_insert. cbn [links set_links].
  destruct (decide (s = base)) as [->|Hne].
  - rewrite lookup_insert_eq. cbn [default from_option id].
    rewrite map_size_insert. destruct (default ∅ (links d !! base) !! expr_ptr t); simpl; lia.
  - rewrite lookup_insert_ne by done. lia.
Qed.



(** The two ways renderLater makes an anchor. *)
Lemma renderLater_anonymous name t c d :
  renderLater name (Some t) c d =
  let s := "type-" +:+ strings_Replace name " "%char "-" in
  (Ret (anchor s (counter d s + 1)),
   set_renderQueue (renderQueue d ++ [mkQueueElem (mkTypeSpec name t) c (anchor s (counter d s + 1))])
     (set_links (link_insert s t d) d)).
Proof. reflexivity. Qed.





(** ** The anchor of a named declaration *)



(** ** Two inline structs under one anchor (C3) *)

(** C3 on the document import "." "p", input "P", input "P", input "Q".
    The fields C of P and of Q have inline struct types that are alike and
    are two nodes.  The second rendering of P registers the node of P.C
    again: the map of the base keeps its size, and the anchor given to
    Q.C afterwards, type-of-"C"-2, is the one the second table of P.C
    stands under. *)
Theorem anonymous_structs_share_anchor :
  let a := "type-of-" +:+ dq +:+ "C" +:+ dq +:+ "-2" in
  let rendering (name : string) (t : Expr) :=
    "### Input (" +:+ name +:+ ")" +:+ nl +:+ "<div>" +:+ nl
    +:+ table "" "" [mkfield "&#34;C&#34;" (a_href a "type of &#34;C&#34;") ""]
    +:+ heading (mkQueueElem (mkTypeSpec ("of " +:+ dq +:+ "C" +:+ dq) t) None a)
    +:+ table "" "" [mkfield "&#34;X&#34;" "int" ""]
    +:+ "</div>" +:+ nl in
  expr_ptr example.t_P_C ≠ expr_ptr example.t_Q_C
  ∧ ∃ first,
      fst (ExecuteTemplate example.env 3
             [a_import "." "p"; a_input "P"; a_input "P"; a_input "Q"] NewJSONDoc)
      = Ret [""; first; rendering "P" example.t_P_C; rendering "Q" example.t_Q_C].
Proof. cbv zeta. split; [discriminate|]. eexists. vm_compute. reflexivity. Qed.

(** ** A queue that never drains (C1) *)
Section Cycle.

Import example.

Lemma find_D :
  findObject "D" (Some pkg) "p"
  = Ret (Some (mkObject 5 (DeclTypeSpec (mkTypeSpec "D" t_D))), Some ctx, None).
Proof. vm_compute. reflexivity. Qed.

Lemma appendFields_D_grows n fields d :
  grows (appendFields env n fields D_fields (Some ctx) d) d.
Proof.
  unfold D_fields. rewrite appendFields_cons, bind_eq.
  unfold appendEmbedded. cbn [Names Typ Tag]. unfold ret at 1. cbv beta iota.
  rewrite bind_eq. cbn [appendNames Names Typ Tag Comment].
  change (tagToName "X" None) with (@Ret string (dq +:+ "X" +:+ dq)). cbv beta iota.
  rewrite bind_eq. unfold t_D_X. cbn [typeLink].
  change (with_element (dq +:+ "X" +:+ dq)) with (dq +:+ "X" +:+ dq +:+ "-element").
  change (strings_HasSuffix (dq +:+ "X" +:+ dq +:+ "-element") "-element") with true.
  cbv beta iota. rewrite bind_eq, bind_eq, renderLater_anonymous. cbv zeta beta iota.
  unfold ret. cbv beta iota. rewrite appendFields_nil. unfold ret.
  eexists _, _, _. split; [reflexivity|]. split; [reflexivity|]. split; reflexivity.
Qed.

(** Rendering the struct of D.X flattens the embedded D, whose field X
    puts the same struct in the queue again. *)
Lemma renderType1_D_X n d :
  fst (renderType1 env n t_D_X (Some ctx) "" d) = OutOfFuel
  ∨ grows (renderType1 env n t_D_X (Some ctx) "" d) d.
Proof.
  unfold t_D_X. cbn [renderType1]. rewrite bind_eq, appendFields_cons, bind_eq.
  unfold appendEmbedded. cbn [Names Typ]. rewrite bind_eq.
  change (Package_ ctx) with pkg. change (Path ctx) with "p". rewrite find_D.
  unfold lift. cbv beta iota. cbn [obj_Decl ts_Type]. unfold t_D.
  destruct n as [|n]; [now left|]. right.
  pose proof (appendFields_D_grows n [] d) as (fields & d' & q & E & Hq & Hc).
  unfold D_fields in E. rewrite E. cbn [appendNames Names]. rewrite bind_eq.
  unfold ret at 1. cbv beta iota. rewrite appendFields_nil. unfold ret at 1. cbv beta iota.
  unfold grows, cyc_item, t_D_X in *.
  destruct (Nat.ltb 0 (length fields)); eexists _, _, q; (split; [reflexivity|]); split; assumption.
Qed.

Lemma drain_never_ends fuel n : ∀ i d,
  (i < length (renderQueue d))%nat →
  (∀ j q, (i ≤ j)%nat → renderQueue d !! j = Some q → cyc_item q) →
  fst (drain env fuel n i d) = OutOfFuel.
Proof.
  induction fuel as [|fuel IH]; intros i d Hi Hall; cbn [drain];
    destruct (renderQueue d !! i) as [q|] eqn:Eq;
    try reflexivity; try (apply lookup_ge_None in Eq; lia).
  destruct (Hall i q (le_n _) Eq) as [Ht Hc].
  rewrite bind_eq. unfold write_b at 1, modify at 1. rewrite bind_eq.
  unfold renderType. rewrite Ht, Hc.
  set (d0 := set_b _ d).
  destruct (renderType1_D_X n d0) as [Ho|(a & d' & q' & E & Hq & Hc')].
  - destruct (renderType1 env n t_D_X (Some ctx) "" d0) as [[| | |] ?]; try discriminate.
    reflexivity.
  - rewrite E. apply IH.
    + rewrite Hq, length_app. subst d0. cbn. lia.
    + intros j q0 Hj Hl. rewrite Hq in Hl. subst d0. cbn [renderQueue set_b] in Hl.
      apply lookup_app_Some in Hl as [Hl|[_ Hl]].
      * apply (Hall j q0); [lia|exact Hl].
      * apply list_lookup_singleton_Some in Hl as [_ <-]. exact Hc'.
Qed.

Lemma import_p : importPkg env "." "p" NewJSONDoc = (Ret "", imported).
Proof. vm_compute. reflexivity. Qed.

End Cycle.

(** C1 on the document import "." "p", input "D", where
    type D struct { X []struct{ D } }: whatever the number of rounds
    allowed, the loop of renderTypes has not finished.  Every round
    renders the struct of X, which embeds D, whose field X appends that
    struct to the queue once more. *)
Theorem drain_loop_never_ends fuel :
  fst (ExecuteTemplate example.env fuel [a_import "." "p"; a_input "D"] NewJSONDoc) = OutOfFuel.
Proof.
  cbn [ExecuteTemplate call]. rewrite bind_eq, import_p, bind_eq.
  unfold input. rewrite bind_eq. unfold modify at 1. rewrite bind_eq.
  unfold write_b at 1, modify at 1. rewrite bind_eq.
  set (d0 := set_b _ (set_b "" example.imported)).
  assert (fst (renderTypes example.env fuel "D" d0) = OutOfFuel) as H.
  { unfold renderTypes, renderTypeByName.
    change (split_name "D") with (".", "D"). cbv beta iota.
    rewrite bind_eq, bind_eq. unfold get at 1.
    change (map_get (imports d0) ".") with "p".
    change (String.eqb "p" "") with false. cbv iota.
    rewrite bind_eq. unfold get at 1.
    change (packages d0 !! "p") with (Some example.pkg).
    rewrite bind_eq. unfold lift at 1. rewrite find_D. cbn [obj_Decl].
    unfold renderType. cbn [ts_Type]. unfold example.t_D. cbn [renderType1].
    rewrite bind_eq.
    destruct (appendFields_D_grows fuel [] d0) as (fields & d' & q & E & Hq & Hc).
    fold example.D_fields. rewrite E.
    destruct (Nat.ltb 0 (length fields)).
    all: unfold write_b at 1, modify at 1; rewrite bind_eq.
    all: match goal with
         | |- context [drain _ _ _ 0 ?d1] =>
             assert (fst (drain example.env fuel fuel 0 d1) = OutOfFuel) as Hd;
             [apply drain_never_ends;
              [cbn [renderQueue set_b]; rewrite Hq; subst d0; cbn; lia
              |intros j q0 _ Hl; cbn [renderQueue set_b] in Hl; rewrite Hq in Hl;
               subst d0; cbn in Hl; destruct j; [injection Hl as <-; exact Hc|discriminate]]
             |]
         end.
    all: destruct (drain example.env fuel fuel 0 _) as [[| | |] ?]; cbn [fst] in Hd;
      try discriminate; reflexivity. }
  rewrite bind_eq.
  destruct (renderTypes example.env fuel "D" d0) as [[| | |] ?]; cbn [fst] in H;
    try discriminate. reflexivity.
Qed.

(** A circular reference between named declarations does end: T refers to
    itself through the field Children, is queued once under type-T-1, and
    the reference met while that item is rendered reuses the anchor. *)
Example circular_named_reference_ends :
  let row := mkfield "&#34;Children&#34;" ("array of " +:+ a_href "type-T-1" "T") "" in
  fst (ExecuteTemplate example.env 1 [a_import "." "p"; a_input "T"] NewJSONDoc)
  = Ret [""; "### Input (T)" +:+ nl +:+ "<div>" +:+ nl
             +:+ table "" "" [row]
             +:+ heading (mkQueueElem (mkTypeSpec "T" example.t_T) None "type-T-1")
             +:+ table "" "" [row]
             +:+ "</div>" +:+ nl].
Proof. vm_compute. reflexivity. Qed.

(** * Further properties of the generator *)

(** ** Relations that the methods preserve, from what their steps do

    As in the section Preserved, for a preorder that need not hold across
    every update of a field: it holds across an append to the buffer or to
    os.Stderr, across parsedPackage, across the recording of a package name
    that was not known, and across renderLater. *)
Section Stable.

Context (env : GoEnv) (R : relation JSONDoc) `{!PreOrder R}.

Hypothesis R_write_b : ∀ s, preserving R (write_b s).
Hypothesis R_write_stderr : ∀ s, preserving R (write_stderr s).
Hypothesis R_parsedPackage : ∀ path, preserving R (parsedPackage env path).
Hypothesis R_packageName :
  ∀ path v d, map_get (packageNames d) path = "" →
              R d (set_packageNames (<[path := v]> (packageNames d)) d).
Hypothesis R_renderLater : ∀ name t c, preserving R (renderLater name t c).

Ltac stable :=
  repeat first
    [ assumption
    | apply preserving_ret | apply preserving_fail | apply preserving_crash
    | apply preserving_outOfFuel | apply preserving_lift | apply preserving_get
    | apply R_write_b | apply R_write_stderr | apply R_parsedPackage | apply R_renderLater
    | solve [auto]
    | apply preserving_bind; [try apply _| |intros ?]
    | apply preserving_bind_err; [try apply _| |intros ?|intros ?]
    | match goal with
      | |- preserving _ (match ?x with _ => _ end) => destruct x
      | |- preserving _ (let '(_, _) := ?x in _) => destruct x
      end ].

Lemma stable_findImportIdent file name : preserving R (findImportIdent env file name).
Proof.
  unfold findImportIdent. induction (Imports file) as [|imp imps IH]; cbn [findImportIdent_loop].
  - stable.
  - apply preserving_bind; [apply _|stable|]. intros path.
    destruct (imp_Name imp); [destruct (String.eqb _ _); stable|].
    intros d. unfold bind at 1, get at 1.
    destruct (String.eqb_spec (map_get (packageNames d) path) "") as [E|E].
    + destruct (build_Import env path) as [p|err]; [|reflexivity].
      unfold bind, modify, ret.
      destruct (String.eqb (bp_Name p) name); cbn [snd].
      * now apply R_packageName.
      * etrans; [now apply (R_packageName path (bp_Name p))|apply IH].
    + unfold bind, ret. destruct (String.eqb _ name); [reflexivity|apply IH].
Qed.

Lemma stable_selector_fallback x sel err : preserving R (selector_fallback x sel err).
Proof. unfold selector_fallback. stable. Qed.

Lemma stable_typeLink t : ∀ c name suffix, preserving R (typeLink env t c name suffix).
Proof.
  pose proof stable_findImportIdent. pose proof stable_selector_fallback.
  induction t; intros c name suffix; cbn [typeLink]; solve [stable].
Qed.

Lemma stable_appendNames f c names :
  ∀ fields, preserving R (appendNames env f c names fields).
Proof.
  induction names as [|indent names IH]; intros fields; cbn [appendNames]; [stable|].
  pose proof stable_typeLink.
  destruct (tagToName indent (Tag f)) as [name|[| |?]| |]; solve [stable].
Qed.

Lemma stable_appendFields n : ∀ t fields c, preserving R (appendFields env n fields t c).
Proof.
  induction n as [n IHn] using lt_wf_ind.
  induction t as [|f t IHt]; intros fields c.
  - rewrite appendFields_nil. stable.
  - rewrite appendFields_cons.
    assert (preserving R (appendEmbedded env n f c fields)) as He.
    { unfold appendEmbedded. destruct n as [|n']; [solve [stable]|].
      pose proof (IHn n' (Nat.lt_succ_diag_r n')). solve [stable]. }
    pose proof stable_appendNames. solve [stable].
Qed.

Lemma stable_renderType1 n typ : ∀ c prefix, preserving R (renderType1 env n typ c prefix).
Proof.
  pose proof (stable_appendFields n).
  induction typ; intros c prefix; cbn [renderType1]; solve [stable].
Qed.

Lemma stable_drain fuel n : ∀ i, preserving R (drain env fuel n i).
Proof.
  induction fuel as [|fuel IH]; intros i d; cbn [drain];
    destruct (renderQueue d !! i) as [q|]; try reflexivity.
  revert d. change (preserving R (write_b (heading q);; renderType env n (q_t q) (q_c q);;
                                  drain env fuel n (i + 1))).
  pose proof (stable_renderType1 n). unfold renderType. solve [stable].
Qed.

(** renderTypes also empties the queue. *)
Hypothesis R_renderQueue : ∀ d, R d (set_renderQueue [] d).

Lemma stable_renderTypes fuel name : preserving R (renderTypes env fuel name).
Proof.
  pose proof (stable_renderType1 fuel). pose proof (stable_drain fuel fuel).
  assert (preserving R (modify (set_renderQueue []))) by (intros d; apply R_renderQueue).
  unfold renderTypes, renderTypeByName, renderType. solve [stable].
Qed.

End Stable.

(** ** The tables of imports and of packages *)
Section Tables.

Context (env : GoEnv).

Global Instance packages_kept_preorder : PreOrder packages_kept.
Proof. split; [now intros d path pkg|]. intros d1 d2 d3 H12 H23 path pkg H. auto. Qed.

Global Instance tables_kept_preorder : PreOrder tables_kept.
Proof.
  split; [now split|]. intros d1 d2 d3 [I12 P12] [I23 P23]. split; [congruence|].
  now transitivity d2.
Qed.

Global Instance imports_kept_preorder : PreOrder imports_kept.
Proof.
  split; [now intros d alias|].
  intros d1 d2 d3 H12 H23 alias Ha. rewrite H23, H12; auto.
  unfold map_get. rewrite H12; auto.
Qed.

Lemma tables_kept_same d d' :
  imports d' = imports d → packages d' = packages d → tables_kept d d'.
Proof. intros Hi Hp. split; [exact Hi|]. intros path pkg. now rewrite Hp. Qed.

(** What a call of parsedPackage that returns has done. *)
Lemma parsedPackage_returns path pkg d d1 :
  parsedPackage env path d = (Ret pkg, d1) →
  packages d1 !! path = Some pkg
  ∧ (packages d !! path = Some pkg ∧ d1 = d
     ∨ packages d !! path = None ∧ packages d1 = <[path := pkg]> (packages d)).
Proof.
  unfold parsedPackage. destruct (packages d !! path) as [p0|] eqn:E.
  - intros [= <- <-]. auto.
  - destruct (build_Import env path); [|discriminate].
    destruct (parser_ParseDir env _ path) as [l|]; [|discriminate].
    destruct (Nat.ltb 1 (length l)); [discriminate|]. destruct l as [|p l]; [discriminate|].
    intros [= <- <-]. cbn. split; [apply lookup_insert_eq|]. right. auto.
Qed.

Lemma tables_kept_parsedPackage path : preserving tables_kept (parsedPackage env path).
Proof.
  intros d. destruct (parsedPackage env path d) as [o d1] eqn:E. cbn [snd].
  unfold parsedPackage in E. destruct (packages d !! path) as [p0|] eqn:Ep.
  - injection E as _ <-. reflexivity.
  - destruct (build_Import env path); [|injection E as _ <-; reflexivity].
    destruct (parser_ParseDir env _ path) as [l|]; [|injection E as _ <-; reflexivity].
    destruct (Nat.ltb 1 (length l)); [injection E as _ <-; reflexivity|].
    destruct l as [|p l]; injection E as _ <-; [reflexivity|].
    split; [reflexivity|]. intros path' pkg' H. cbn.
    rewrite lookup_insert_ne; [exact H|]. intros <-. congruence.
Qed.

Lemma tables_kept_renderLater name t c : preserving tables_kept (renderLater name t c).
Proof.
  intros d. unfold renderLater. destruct t as [t|]; [now apply tables_kept_same|].
  destruct c as [c0|]; [|reflexivity].
  unfold bind, lift, get. destruct (findObject _ _ _) as [[[[o|] c] [err|]]| | |];
    try reflexivity; try (now apply tables_kept_same).
  cbv beta iota. destruct (negb _); [reflexivity|].
  destruct (obj_Decl o); [now apply tables_kept_same|reflexivity].
Qed.

Lemma tables_kept_renderTypes fuel name : preserving tables_kept (renderTypes env fuel name).
Proof.
  apply (stable_renderTypes env tables_kept); intros;
    try apply tables_kept_parsedPackage; try apply tables_kept_renderLater;
    try (intros ?); now apply tables_kept_same.
Qed.

(** The actions other than import leave the aliases alone. *)
Lemma call_tables_kept fuel a d :
  (∀ name path, a ≠ a_import name path) → tables_kept d (call env fuel a d).2.
Proof.
  intros Hne. pose proof (tables_kept_renderTypes fuel) as Hr.
  destruct a as [t|name path|name|name]; cbn [call].
  - now apply tables_kept_same.
  - now destruct (Hne name path).
  - revert d. unfold input.
    match goal with |- ∀ d, tables_kept d (?m d).2 => change (preserving tables_kept m) end.
    repeat first [apply Hr | solve [intros d; now apply tables_kept_same]
                 | apply preserving_bind; [apply _| |intros ?]].
  - revert d. unfold output. cbv zeta.
    match goal with |- ∀ d, tables_kept d (?m d).2 => change (preserving tables_kept m) end.
    repeat first [apply Hr | solve [intros d; now apply tables_kept_same]
                 | apply preserving_bind; [apply _| |intros ?]].
Qed.

(** An import keeps the packages, and either leaves the aliases alone or
    adds its alias, which was free, for a package that is loaded. *)
Lemma importPkg_tables name path d :
  packages_kept d (importPkg env name path d).2
  ∧ (imports (importPkg env name path d).2 = imports d
     ∨ map_get (imports d) name = ""
       ∧ imports (importPkg env name path d).2 = <[name := path]> (imports d)
       ∧ is_Some (packages (importPkg env name path d).2 !! path)).
Proof.
  unfold importPkg, bind, get. cbv beta iota.
  destruct (String.eqb_spec (map_get (imports d) name) "") as [E|E]; cbn [negb];
    [|split; [reflexivity|now left]].
  pose proof (tables_kept_parsedPackage path d) as Hk.
  destruct (parsedPackage env path d) as [[pkg| | |] d1] eqn:Ep; cbn [snd] in *;
    try (destruct Hk; split; [assumption|now left]).
  destruct Hk as [Hi Hp]. unfold modify, ret. cbn [snd imports packages set_imports].
  apply parsedPackage_returns in Ep as [Hl _].
  split; [exact Hp|]. right. rewrite Hi. eauto.
Qed.

Lemma call_tables fuel a d :
  imports_kept d (call env fuel a d).2 ∧ packages_kept d (call env fuel a d).2.
Proof.
  assert ((∀ name path, a ≠ a_import name path) →
          imports_kept d (call env fuel a d).2 ∧ packages_kept d (call env fuel a d).2)
    as Hother.
  { intros Hne. destruct (call_tables_kept fuel a d Hne) as [Hi Hp].
    split; [|exact Hp]. intros alias _. now rewrite Hi. }
  destruct a as [t|name path|name|name]; try (apply Hother; discriminate).
  cbn [call]. destruct (importPkg_tables name path d) as [Hp [Hi|(Hf & Hi & _)]].
  - split; [|exact Hp]. intros alias _. now rewrite Hi.
  - split; [|exact Hp]. intros alias Ha. rewrite Hi, lookup_insert_ne; [reflexivity|].
    intros <-. contradiction.
Qed.

Lemma step_tables d d' : step env d d' → imports_kept d d' ∧ packages_kept d d'.
Proof.
  assert (∀ d', tables_kept d d' → imports_kept d d' ∧ packages_kept d d') as Hsame.
  { intros d0 [Hi Hp]. split; [|exact Hp]. intros alias _. now rewrite Hi. }
  assert (∀ s, preserving tables_kept (write_b s)) as Hb
    by (intros s d0; now apply tables_kept_same).
  assert (∀ s, preserving tables_kept (write_stderr s)) as He
    by (intros s d0; now apply tables_kept_same).
  assert (∀ path v d0, map_get (packageNames d0) path = "" →
            tables_kept d0 (set_packageNames (<[path := v]> (packageNames d0)) d0)) as Hn
    by (intros; now apply tables_kept_same).
  assert (∀ d0, tables_kept d0 (set_renderQueue [] d0)) as Hq
    by (intros; now apply tables_kept_same).
  pose proof tables_kept_parsedPackage as Hp. pose proof tables_kept_renderLater as Hr.
  destruct 1.
  - apply Hsame, tables_kept_renderLater.
  - apply Hsame, tables_kept_parsedPackage.
  - apply Hsame, (stable_findImportIdent env tables_kept); assumption.
  - apply Hsame, (stable_typeLink env tables_kept); assumption.
  - apply Hsame, (stable_appendFields env tables_kept); assumption.
  - apply Hsame, (stable_renderType1 env tables_kept); assumption.
  - apply Hsame, tables_kept_renderTypes.
  - apply call_tables.
  - apply Hsame. now apply tables_kept_same.
  - apply Hsame. now apply tables_kept_same.
Qed.

Lemma reach_tables d d' : reach env d d' → imports_kept d d' ∧ packages_kept d d'.
Proof.
  induction 1 as [|d1 d2 d3 H12 _ [IHi IHp]]; [split; reflexivity|].
  apply step_tables in H12 as [Hi Hp]. split; etrans; eauto.
Qed.

End Tables.

(** X1.  An alias is imported once.  After importPkg has returned for a
    name and a path that is not empty, every later import of that name,
    whatever its path, is refused with the error name ... already imported
    and changes nothing; later means in any state that the run reaches. *)
Theorem import_twice_rejected env name path s d d1 d2 path' :
  importPkg env name path d = (Ret s, d1) → path ≠ "" → reach env d1 d2 →
  importPkg env name path' d2
  = (Fail (errorString ("name " +:+ name +:+ " already imported")), d2).
Proof.
  intros Hi Hne Hreach.
  assert (imports d1 !! name = Some path) as H1.
  { unfold importPkg, bind, get in Hi. cbv beta iota in Hi.
    destruct (negb _); [discriminate|].
    destruct (parsedPackage env path d) as [[pkg| | |] d0]; try discriminate.
    unfold modify, ret in Hi. injection Hi as _ <-. cbn. apply lookup_insert_eq. }
  apply reach_tables in Hreach as [Hk _].
  assert (map_get (imports d2) name = path) as H2.
  { unfold map_get. rewrite Hk; [now rewrite H1|]. unfold map_get. now rewrite H1. }
  unfold importPkg, bind, get. cbv beta iota. rewrite H2.
  destruct (String.eqb_spec path ""); [contradiction|reflexivity].
Qed.

Lemma import_twice_rejected_witness :
  importPkg example.env "." "q" (call example.env 2 (a_input "size") example.imported).2
  = (Fail (errorString "name . already imported"),
     (call example.env 2 (a_input "size") example.imported).2).
Proof.
  apply (import_twice_rejected example.env "." "p" "" NewJSONDoc example.imported).
  - vm_compute. reflexivity.
  - discriminate.
  - apply rtc_once, step_call.
Defined.

(** X2.  parsedPackage reads a directory once.  After it has returned a
    package for a path, every later call for that path returns that package
    and changes nothing, whatever build.Import and parser.ParseDir would
    answer by then. *)
Theorem parsedPackage_cached env env' path pkg d d1 d2 :
  parsedPackage env path d = (Ret pkg, d1) → reach env d1 d2 →
  parsedPackage env' path d2 = (Ret pkg, d2).
Proof.
  intros Hp Hreach. apply parsedPackage_returns in Hp as [Hl _].
  apply reach_tables in Hreach as [_ Hk]. unfold parsedPackage. now rewrite (Hk _ _ Hl).
Qed.

Lemma parsedPackage_cached_witness :
  parsedPackage (mkGoEnv (λ _, inr ErrSyntax) (λ _ _, inr ErrSyntax) (λ _, "")) "p"
    (call example.env 2 (a_input "size") example.imported).2
  = (Ret example.pkg, (call example.env 2 (a_input "size") example.imported).2).
Proof.
  apply (parsedPackage_cached example.env _ "p" example.pkg NewJSONDoc
           (parsedPackage example.env "p" NewJSONDoc).2).
  - vm_compute. reflexivity.
  - etrans; [|apply rtc_once, step_call].
    apply rtc_once.
    change (step example.env ((parsedPackage example.env "p" NewJSONDoc).2)
                 ((call example.env 0 (a_import "." "p")
                     (parsedPackage example.env "p" NewJSONDoc).2).2)).
    apply step_call.
Defined.

(** ** Every imported alias has its package *)
Section Loaded.

Context (env : GoEnv).

Lemma loaded_tables_kept d d' : tables_kept d d' → imports_loaded d → imports_loaded d'.
Proof.
  intros [Hi Hp] Hl alias Ha. rewrite Hi in *. destruct (Hl alias Ha) as [pkg Hpkg].
  exists pkg. now apply Hp.
Qed.

Lemma loaded_importPkg name path d :
  imports_loaded d → imports_loaded (importPkg env name path d).2.
Proof.
  intros Hl. destruct (importPkg_tables env name path d) as [Hp [Hi|(Hf & Hi & Hs)]].
  - apply (loaded_tables_kept d); [now split|exact Hl].
  - intros alias Ha. unfold map_get in *. rewrite Hi in *.
    destruct (decide (name = alias)) as [->|Hne].
    + rewrite lookup_insert_eq in *. exact Hs.
    + rewrite lookup_insert_ne in * by done. destruct (Hl alias Ha) as [pkg Hpkg].
      exists pkg. now apply Hp.
Qed.

Lemma step_loaded d d' : step env d d' → imports_loaded d → imports_loaded d'.
Proof.
  assert (∀ s, preserving tables_kept (write_b s)) as Hb
    by (intros s d0; now apply tables_kept_same).
  assert (∀ s, preserving tables_kept (write_stderr s)) as He
    by (intros s d0; now apply tables_kept_same).
  assert (∀ path v d0, map_get (packageNames d0) path = "" →
            tables_kept d0 (set_packageNames (<[path := v]> (packageNames d0)) d0)) as Hn
    by (intros; now apply tables_kept_same).
  pose proof (tables_kept_parsedPackage env) as Hp.
  pose proof tables_kept_renderLater as Hr.
  destruct 1 as [| | | | | | |fuel a d| |].
  - apply loaded_tables_kept, tables_kept_renderLater.
  - apply loaded_tables_kept, tables_kept_parsedPackage.
  - apply loaded_tables_kept, (stable_findImportIdent env tables_kept); assumption.
  - apply loaded_tables_kept, (stable_typeLink env tables_kept); assumption.
  - apply loaded_tables_kept, (stable_appendFields env tables_kept); assumption.
  - apply loaded_tables_kept, (stable_renderType1 env tables_kept); assumption.
  - apply loaded_tables_kept, tables_kept_renderTypes.
  - destruct a as [t|name path|name|name]; [|apply loaded_importPkg| |];
      apply loaded_tables_kept, call_tables_kept; discriminate.
  - apply loaded_tables_kept. now apply tables_kept_same.
  - apply loaded_tables_kept. now apply tables_kept_same.
Qed.

End Loaded.

(** X3.  An imported alias has its package.  From a state where every
    imported alias has its package loaded (the state of NewJSONDoc is one),
    a run reaches only such states: d.packages[d.imports[alias]] is a
    package, and the findObject call of renderTypeByName, which ranges over
    pkg.Files, does not dereference nil. *)
Theorem imported_alias_has_package env d d' alias :
  imports_loaded d → reach env d d' →
  map_get (imports d') alias ≠ "" →
  ∃ pkg, packages d' !! map_get (imports d') alias = Some pkg
         ∧ ∀ name, findObject name (packages d' !! map_get (imports d') alias)
                     (map_get (imports d') alias) ≠ Crash.
Proof.
  intros Hl Hreach. assert (imports_loaded d') as Hl'.
  { induction Hreach as [|d1 d2 d3 H12 _ IH]; [exact Hl|]. eauto using step_loaded. }
  intros Ha. destruct (Hl' alias Ha) as [pkg Hpkg]. exists pkg. split; [exact Hpkg|].
  intros name. rewrite Hpkg. unfold findObject.
  destruct (findInFiles name (Files pkg)) as [[o f]|]; [discriminate|].
  destruct (builtin name); discriminate.
Qed.

Lemma imported_alias_has_package_witness :
  ∃ pkg, packages (call example.env 0 (a_import "." "p") NewJSONDoc).2
           !! map_get (imports (call example.env 0 (a_import "." "p") NewJSONDoc).2) "."
         = Some pkg
         ∧ ∀ name, findObject name
                     (packages (call example.env 0 (a_import "." "p") NewJSONDoc).2
                        !! map_get (imports (call example.env 0 (a_import "." "p") NewJSONDoc).2) ".")
                     (map_get (imports (call example.env 0 (a_import "." "p") NewJSONDoc).2) ".")
                   ≠ Crash.
Proof.
  apply (imported_alias_has_package example.env NewJSONDoc).
  - intros alias Ha. now contradiction Ha.
  - apply rtc_once, step_call.
  - vm_compute. discriminate.
Defined.

(** ** An alias is imported before it is used *)
Section Order.

Context (env : GoEnv).

Lemma call_imports fuel a d alias :
  map_get (imports (call env fuel a d).2) alias ≠ "" →
  map_get (imports d) alias ≠ "" ∨ ∃ path, a = a_import alias path.
Proof.
  assert ((∀ name path, a ≠ a_import name path) →
          map_get (imports (call env fuel a d).2) alias ≠ "" →
          map_get (imports d) alias ≠ "" ∨ ∃ path, a = a_import alias path) as Hother.
  { intros Hne. destruct (call_tables_kept env fuel a d Hne) as [Hi _].
    unfold map_get. rewrite Hi. now left. }
  destruct a as [t|name path|name|name]; try (apply Hother; discriminate).
  cbn [call]. destruct (importPkg_tables env name path d) as [_ [Hi|(_ & Hi & _)]];
    unfold map_get; rewrite Hi; [now left|].
  destruct (decide (name = alias)) as [->|Hne]; [right; eauto|].
  rewrite lookup_insert_ne by done. now left.
Qed.

Lemma renderTypes_not_imported fuel full alias name d :
  split_name full = (alias, name) → map_get (imports d) alias = "" →
  renderTypes env fuel full d
  = (Fail (errorString ("name " +:+ alias +:+ " mast be imported to access " +:+ name)), d).
Proof.
  intros Hs Hi. unfold renderTypes, renderTypeByName. rewrite Hs.
  unfold bind, get. cbv beta iota. now rewrite Hi.
Qed.

End Order.

(** X4.  A type is named after the import of its alias.  When the name
    of an input or output action has an alias (the part before the last
    dot, or . without a dot) that is not imported in the starting state and
    that no import action before it imports, the document does not run to
    its end. *)
Theorem alias_used_before_import env fuel doc1 a doc2 full alias name d out d' :
  split_name full = (alias, name) →
  a = a_input full ∨ a = a_output full →
  map_get (imports d) alias = "" →
  (∀ path, a_import alias path ∉ doc1) →
  ExecuteTemplate env fuel (doc1 ++ a :: doc2) d ≠ (Ret out, d').
Proof.
  intros Hs Ha. revert d out d'. induction doc1 as [|a0 doc1 IH]; intros d out d' Hi Hno.
  - cbn [app ExecuteTemplate]. unfold bind at 1.
    assert (∃ d0, call env fuel a d = (Fail (errorString ("name " +:+ alias
                      +:+ " mast be imported to access " +:+ name)), d0)) as [d0 ->];
      [|discriminate].
    destruct Ha as [-> | ->]; eexists; cbn [call]; unfold input, output; cbv zeta;
      unfold bind, write_b, modify; cbv beta iota;
      rewrite (renderTypes_not_imported env fuel full alias name) by (exact Hs || exact Hi);
      reflexivity.
  - cbn [app ExecuteTemplate]. unfold bind at 1.
    destruct (call env fuel a0 d) as [[s| | |] d1] eqn:Ec; try discriminate.
    unfold bind at 1.
    destruct (ExecuteTemplate env fuel (doc1 ++ a :: doc2) d1) as [[out1| | |] d2] eqn:Ee;
      try discriminate.
    exfalso. apply (IH d1 out1 d2); [| |exact Ee].
    + destruct (String.eqb_spec (map_get (imports d1) alias) "") as [E|E]; [exact E|].
      pose proof (call_imports env fuel a0 d alias) as Hc. rewrite Ec in Hc.
      destruct (Hc E) as [Hd|[path ->]]; [contradiction|].
      destruct (Hno path). left.
    + intros path Hin. apply (Hno path). now right.
Qed.

Lemma alias_used_before_import_witness :
  ExecuteTemplate example.env 2 ([a_title "API"] ++ a_input "q.size" :: [a_import "q" "p"])
    NewJSONDoc
  ≠ (Ret [""; ""; ""], NewJSONDoc).
Proof.
  apply (alias_used_before_import example.env 2 [a_title "API"] (a_input "q.size")
           [a_import "q" "p"] "q.size" "q" "size").
  - reflexivity.
  - now left.
  - reflexivity.
  - intros path Hin. apply list_elem_of_singleton in Hin. discriminate.
Defined.

(** ** Counters over a run *)
Section Counters.

Context (env : GoEnv).

Global Instance counters_grow_preorder : PreOrder counters_grow.
Proof.
  split; [now intros d base|]. intros d1 d2 d3 H12 H23 base.
  specialize (H12 base). specialize (H23 base). lia.
Qed.

Lemma counters_grow_same d d' : links d' = links d → counters_grow d d'.
Proof. intros E base. unfold counter. now rewrite E. Qed.

Lemma counters_grow_renderLater name t c : preserving counters_grow (renderLater name t c).
Proof.
  intros d base. destruct t as [t|].
  - rewrite renderLater_anonymous. cbv zeta. cbn [snd].
    set (s := "type-" +:+ _).
    assert (counter (set_renderQueue (renderQueue d ++ [mkQueueElem (mkTypeSpec name t) c
                        (anchor s (counter d s + 1))]) (set_links (link_insert s t d) d)) base
            = counter (set_links (link_insert s t d) d) base) as -> by reflexivity.
    apply counter_link_insert.
  - destruct c as [c0|]; [|reflexivity].
    unfold renderLater, bind, lift, get.
    destruct (findObject _ _ _) as [[[[o|] c] [err|]]| | |]; try reflexivity.
    cbv beta iota. destruct (negb _); [reflexivity|].
    destruct (obj_Decl o) as [ts|]; [|reflexivity]. cbn [snd].
    apply (counter_link_insert ("type-" +:+ name)).
Qed.

Lemma step_counters d d' : step env d d' → counters_grow d d'.
Proof.
  assert (∀ s d, counters_grow d (set_b s d)) as Hb by (intros; now apply counters_grow_same).
  assert (∀ s d, counters_grow d (set_stderr s d)) as He
    by (intros; now apply counters_grow_same).
  assert (∀ v d, counters_grow d (set_packages v d)) as Hp
    by (intros; now apply counters_grow_same).
  assert (∀ v d, counters_grow d (set_packageNames v d)) as Hn
    by (intros; now apply counters_grow_same).
  assert (∀ d, counters_grow d (set_renderQueue [] d)) as Hq
    by (intros; now apply counters_grow_same).
  assert (∀ v d, counters_grow d (set_title v d)) as Ht
    by (intros; now apply counters_grow_same).
  assert (∀ v d, counters_grow d (set_imports v d)) as Hi
    by (intros; now apply counters_grow_same).
  pose proof counters_grow_renderLater as Hr.
  destruct 1.
  - apply counters_grow_renderLater.
  - apply (preserving_parsedPackage env counters_grow); assumption.
  - apply (preserving_findImportIdent env counters_grow); assumption.
  - apply (preserving_typeLink env counters_grow); assumption.
  - apply (preserving_appendFields env counters_grow); assumption.
  - apply (preserving_renderType1 env counters_grow); assumption.
  - apply (preserving_renderTypes env counters_grow); assumption.
  - apply (preserving_call env counters_grow); assumption.
  - apply Hb.
  - apply Hq.
Qed.

End Counters.

(** X5.  The counter of a base name, len(d.links[base]), from which
    renderLater takes the number of an anchor, never decreases in a run. *)
Theorem counters_never_decrease env d d' base :
  reach env d d' → (counter d base ≤ counter d' base)%nat.
Proof.
  intros H. revert base. change (counters_grow d d').
  induction H as [|d1 d2 d3 H12 _ IH]; [reflexivity|].
  etrans; [apply (step_counters env), H12|exact IH].
Qed.

Lemma counters_never_decrease_witness :
  (counter example.imported "type-size"
   ≤ counter (call example.env 2 (a_input "helloInput") example.imported).2 "type-size")%nat.
Proof. apply (counters_never_decrease example.env). apply rtc_once, step_call. Defined.

(** ** The title *)
Section Title.

Context (env : GoEnv).

Global Instance title_same_preorder : PreOrder title_same.
Proof. split; [now intros d|]. intros d1 d2 d3 H12 H23. unfold title_same in *. congruence. Qed.

Lemma title_same_renderLater name t c : preserving title_same (renderLater name t c).
Proof.
  intros d. unfold renderLater. destruct t as [t|]; [reflexivity|].
  destruct c as [c0|]; [|reflexivity].
  unfold bind, lift, get. destruct (findObject _ _ _) as [[[[o|] c] [err|]]| | |];
    try reflexivity.
  cbv beta iota. destruct (negb _); [reflexivity|]. destruct (obj_Decl o); reflexivity.
Qed.

Lemma title_same_parsedPackage path : preserving title_same (parsedPackage env path).
Proof.
  intros d. unfold parsedPackage. destruct (packages d !! path); [reflexivity|].
  destruct (build_Import env path); [|reflexivity].
  destruct (parser_ParseDir env _ path) as [l|]; [|reflexivity].
  destruct (Nat.ltb 1 (length l)); [reflexivity|]. destruct l; reflexivity.
Qed.

Lemma title_same_renderTypes fuel name : preserving title_same (renderTypes env fuel name).
Proof.
  apply (stable_renderTypes env title_same); intros;
    try apply title_same_parsedPackage; try apply title_same_renderLater;
    try (intros ?); reflexivity.
Qed.

(** The title after an action. *)
Lemma call_title fuel a d :
  title (call env fuel a d).2 = match a with a_title t => t | _ => title d end.
Proof.
  pose proof (title_same_renderTypes fuel) as Hr.
  destruct a as [t|name path|name|name]; cbn [call].
  - reflexivity.
  - unfold importPkg, bind, get. cbv beta iota. destruct (negb _); [reflexivity|].
    pose proof (title_same_parsedPackage path d) as Hp.
    destruct (parsedPackage env path d) as [[pkg| | |] d1]; exact Hp.
  - revert d. unfold input.
    match goal with |- ∀ d, title (?m d).2 = title d => change (preserving title_same m) end.
    repeat first [apply Hr | solve [intros d; reflexivity]
                 | apply preserving_bind; [apply _| |intros ?]].
  - revert d. unfold output. cbv zeta.
    match goal with |- ∀ d, title (?m d).2 = title d => change (preserving title_same m) end.
    repeat first [apply Hr | solve [intros d; reflexivity]
                 | apply preserving_bind; [apply _| |intros ?]].
Qed.

End Title.

(** ** Runs of a document *)
Section Runs.

Context (env : GoEnv).

Lemma ExecuteTemplate_cons fuel a doc d out d' :
  ExecuteTemplate env fuel (a :: doc) d = (Ret out, d') →
  ∃ s d1 out1, call env fuel a d = (Ret s, d1)
               ∧ ExecuteTemplate env fuel doc d1 = (Ret out1, d') ∧ out = s :: out1.
Proof.
  cbn [ExecuteTemplate]. rewrite bind_eq. intros H.
  destruct (call env fuel a d) as [[s| | |] d1]; try discriminate H.
  rewrite bind_eq in H.
  destruct (ExecuteTemplate env fuel doc d1) as [[out1| | |] d2] eqn:Ee; try discriminate H.
  injection H as <- <-. exists s, d1, out1. auto.
Qed.

Lemma ExecuteTemplate_app fuel doc1 doc2 d out d' :
  ExecuteTemplate env fuel (doc1 ++ doc2)%list d = (Ret out, d') →
  ∃ out1 d1 out2, ExecuteTemplate env fuel doc1 d = (Ret out1, d1)
                  ∧ ExecuteTemplate env fuel doc2 d1 = (Ret out2, d')
                  ∧ out = (out1 ++ out2)%list.
Proof.
  revert d out. induction doc1 as [|a doc1 IH]; intros d out H.
  - exists [], d, out. cbn in *. auto.
  - change ((a :: doc1) ++ doc2)%list with (a :: (doc1 ++ doc2))%list in H.
    apply ExecuteTemplate_cons in H as (s & d1 & out1 & Hc & He & ->).
    apply IH in He as (o1 & d2 & o2 & H1 & H2 & ->).
    exists (s :: o1), d2, o2. split; [|auto].
    cbn [ExecuteTemplate]. rewrite bind_eq, Hc, bind_eq, H1. reflexivity.
Qed.

Lemma ExecuteTemplate_reach fuel doc d :
  reach env d (ExecuteTemplate env fuel doc d).2.
Proof.
  revert d. induction doc as [|a doc IH]; intros d; [apply rtc_refl|].
  cbn [ExecuteTemplate]. rewrite bind_eq.
  pose proof (step_call env fuel a d) as Hs.
  destruct (call env fuel a d) as [[s| | |] d1]; cbn [snd] in *;
    try (apply rtc_once, Hs).
  rewrite bind_eq. specialize (IH d1).
  destruct (ExecuteTemplate env fuel doc d1) as [[out1| | |] d2];
    cbv beta iota delta [ret snd] in *; (eapply rtc_l; [exact Hs|exact IH]).
Qed.

Lemma ExecuteTemplate_title fuel doc d :
  (∀ t, a_title t ∉ doc) → title (ExecuteTemplate env fuel doc d).2 = title d.
Proof.
  revert d. induction doc as [|a doc IH]; intros d Hno; [reflexivity|].
  assert (title (call env fuel a d).2 = title d) as Hc.
  { rewrite call_title. destruct a as [t| | |]; try reflexivity.
    destruct (Hno t). left. }
  assert (∀ t, a_title t ∉ doc) as Hno' by (intros t Hin; apply (Hno t); now right).
  cbn [ExecuteTemplate]. rewrite bind_eq.
  destruct (call env fuel a d) as [[s| | |] d1]; cbn [snd] in *; try exact Hc.
  rewrite bind_eq. specialize (IH d1 Hno').
  destruct (ExecuteTemplate env fuel doc d1) as [[out1| | |] d2];
    cbv beta iota delta [ret snd] in *; congruence.
Qed.

End Runs.

(** X6.  The last title wins.  When a document runs to its end, d.title,
    which WriteTo puts in the header of the page, is the argument of the
    last title action: no other action changes it. *)
Theorem last_title_wins env fuel doc1 t doc2 d out d' :
  (∀ t', a_title t' ∉ doc2) →
  ExecuteTemplate env fuel (doc1 ++ a_title t :: doc2) d = (Ret out, d') →
  title d' = t.
Proof.
  intros Hno H. apply ExecuteTemplate_app in H as (out1 & d1 & out2 & _ & H2 & _).
  apply ExecuteTemplate_cons in H2 as (s & d2 & out3 & Hc & He & _).
  pose proof (ExecuteTemplate_title env fuel doc2 d2 Hno) as Ht. rewrite He in Ht.
  cbn [snd] in Ht. rewrite Ht. pose proof (call_title env fuel (a_title t) d1) as Hc'.
  rewrite Hc in Hc'. exact Hc'.
Qed.

Lemma last_title_wins_witness :
  title (ExecuteTemplate example.env 2
           ([a_title "Draft"] ++ a_title "API" :: [a_import "." "p"; a_input "helloInput"])
           NewJSONDoc).2 = "API".
Proof.
  eapply (last_title_wins example.env 2 [a_title "Draft"] "API"
            [a_import "." "p"; a_input "helloInput"] NewJSONDoc).
  - intros t' Hin. repeat (apply elem_of_cons in Hin as [Hin|Hin]; [discriminate|]).
    now apply elem_of_nil in Hin.
  - vm_compute. reflexivity.
Defined.

(** ** What a block is made of *)
Section Blocks.

Context (env : GoEnv).

Global Instance appended_preorder : PreOrder appended.
Proof.
  split.
  - intros d. exists "". unfold String.append. 
    induction (b d) as [|a s IH]; [reflexivity|]. cbn. now rewrite <- IH.
  - intros d1 d2 d3 [s1 H1] [s2 H2]. exists (s1 +:+ s2).
    now rewrite H2, H1, append_assoc.
Qed.

Lemma appended_same d d' : b d' = b d → appended d d'.
Proof. intros E. destruct (reflexivity (R := appended) d) as [s Hs]. exists s. congruence. Qed.

Lemma appended_renderLater name t c : preserving appended (renderLater name t c).
Proof.
  intros d. apply appended_same. unfold renderLater. destruct t as [t|]; [reflexivity|].
  destruct c as [c0|]; [|reflexivity].
  unfold bind, lift, get. destruct (findObject _ _ _) as [[[[o|] c] [err|]]| | |];
    try reflexivity.
  cbv beta iota. destruct (negb _); [reflexivity|]. destruct (obj_Decl o); reflexivity.
Qed.

Lemma appended_parsedPackage path : preserving appended (parsedPackage env path).
Proof.
  intros d. apply appended_same. unfold parsedPackage.
  destruct (packages d !! path); [reflexivity|].
  destruct (build_Import env path); [|reflexivity].
  destruct (parser_ParseDir env _ path) as [l|]; [|reflexivity].
  destruct (Nat.ltb 1 (length l)); [reflexivity|]. destruct l; reflexivity.
Qed.

Lemma parsedPackage_b path d : b (parsedPackage env path d).2 = b d.
Proof.
  unfold parsedPackage.
  destruct (packages d !! path); [reflexivity|].
  destruct (build_Import env path); [|reflexivity].
  destruct (parser_ParseDir env _ path) as [l|]; [|reflexivity].
  destruct (Nat.ltb 1 (length l)); [reflexivity|]. destruct l; reflexivity.
Qed.

Lemma appended_renderTypes fuel name : preserving appended (renderTypes env fuel name).
Proof.
  apply (stable_renderTypes env appended); intros;
    try apply appended_parsedPackage; try apply appended_renderLater.
  - intros d. now exists s.
  - intros d. now apply appended_same.
  - now apply appended_same.
  - now apply appended_same.
Qed.

Lemma block_shape fuel name head out d d' :
  (modify (set_b "");; write_b head;; renderTypes env fuel name;;
   write_b ("</div>" +:+ nl);; get b) d = (Ret out, d') →
  b d' = out ∧ ∃ body, out = head +:+ body +:+ "</div>" +:+ nl.
Proof.
  unfold bind, write_b, modify, get. cbv beta iota.
  pose proof (appended_renderTypes fuel name (set_b ("" +:+ head) (set_b "" d))) as [body Hb].
  intros H.
  destruct (renderTypes env fuel name _) as [[[]| | |] d1]; try discriminate H.
  cbn [snd] in Hb. injection H as <- <-. split; [reflexivity|]. exists body.
  cbn [b set_b]. rewrite Hb. cbn [b set_b]. now rewrite append_assoc.
Qed.

End Blocks.

(** X7.  What the functions of a template return.  input and output
    return the whole buffer, and what the buffer held before the call is
    gone: the line ### Input (...) or ### Output (...), the line <div>,
    what renderTypes writes, and the line </div>.  input shows the escaped
    name as it is given, with its alias; output shows the part after the
    last dot.  title and import return the empty string and leave the
    buffer alone. *)
Theorem call_returns_block env fuel a out d d' :
  call env fuel a d = (Ret out, d') →
  match a with
  | a_input name =>
      b d' = out
      ∧ ∃ body, out = "### Input (" +:+ markdownEscapeString name +:+ ")" +:+ nl
                        +:+ "<div>" +:+ nl +:+ body +:+ "</div>" +:+ nl
  | a_output name =>
      b d' = out
      ∧ ∃ body, out = "### Output (" +:+ markdownEscapeString (split_name name).2 +:+ ")" +:+ nl
                        +:+ "<div>" +:+ nl +:+ body +:+ "</div>" +:+ nl
  | a_title _ | a_import _ _ => out = "" ∧ b d' = b d
  end.
Proof.
  destruct a as [t|name path|name|name]; cbn [call].
  - intros [= <- <-]. auto.
  - unfold importPkg, bind, get, modify, ret. cbv beta iota. intros H.
    destruct (negb _); [discriminate H|].
    pose proof (parsedPackage_b env path d) as Hb.
    destruct (parsedPackage env path d) as [[pkg| | |] d1]; try discriminate H.
    injection H as <- <-. auto.
  - unfold input. intros H. apply block_shape in H as [Hb [body ->]]. split; [exact Hb|].
    exists body. now rewrite !append_assoc.
  - unfold output. cbv zeta. intros H. apply block_shape in H as [Hb [body ->]].
    split; [exact Hb|]. exists body. rewrite !append_assoc. unfold split_name.
    now destruct (strings_LastIndexByte name ".").
Qed.

Lemma call_returns_block_witness :
  ∃ out d',
    call example.env 2 (a_output "p.size") (call example.env 2 (a_import "p" "p") NewJSONDoc).2
    = (Ret out, d')
    ∧ b d' = out
    ∧ ∃ body, out = "### Output (" +:+ markdownEscapeString "size" +:+ ")" +:+ nl
                      +:+ "<div>" +:+ nl +:+ body +:+ "</div>" +:+ nl.
Proof.
  eexists _, _. split; [vm_compute; reflexivity|].
  apply (call_returns_block example.env 2 (a_output "p.size") _
           (call example.env 2 (a_import "p" "p") NewJSONDoc).2).
  vm_compute. reflexivity.
Defined.

(** ** The pure functions *)
Section Pure.

Lemma Split_hd s sep : ∃ w ws, strings_Split s sep = w :: ws.
Proof.
  destruct s as [|a s]; cbn [strings_Split]; [eauto|].
  destruct (Ascii.eqb a sep); [eauto|]. destruct (strings_Split s sep); eauto.
Qed.

Lemma markdownEscapeString_cons c s :
  markdownEscapeString (String c s)
  = if Nat.ltb (nat_of_ascii c) 128 && isASCIIPunctuation c
    then String "092"%char (String c (markdownEscapeString s))
    else String c (markdownEscapeString s).
Proof. reflexivity. Qed.

Lemma backslash_escaped :
  Nat.ltb (nat_of_ascii "092"%char) 128 && isASCIIPunctuation "092"%char = true.
Proof. reflexivity. Qed.

Lemma HasPrefix_app p s : strings_HasPrefix (p +:+ s) p = true.
Proof.
  induction p as [|a p IH]; [now destruct s|].
  change (String a p +:+ s) with (String a (p +:+ s)). cbn [strings_HasPrefix].
  now rewrite Ascii.eqb_refl.
Qed.

Lemma append_empty_r s : s +:+ "" = s.
Proof.
  induction s as [|a s IH]; [reflexivity|].
  change (String a s +:+ "") with (String a (s +:+ "")). now rewrite IH.
Qed.

Lemma rev_app_app s1 : ∀ s2 acc,
  String.rev_app (s1 +:+ s2) acc = String.rev_app s2 (String.rev_app s1 acc).
Proof.
  induction s1 as [|a s1 IH]; intros s2 acc; [reflexivity|].
  change (String a s1 +:+ s2) with (String a (s1 +:+ s2)). cbn [String.rev_app]. apply IH.
Qed.

Lemma rev_app_acc s : ∀ acc, String.rev_app s acc = String.rev_app s "" +:+ acc.
Proof.
  induction s as [|a s IH]; intros acc; [reflexivity|]. cbn [String.rev_app].
  rewrite (IH (String a acc)), (IH (String a "")), append_assoc. reflexivity.
Qed.

Lemma HasSuffix_app s suffix : strings_HasSuffix (s +:+ suffix) suffix = true.
Proof.
  unfold strings_HasSuffix, String.rev. rewrite rev_app_app, rev_app_acc. apply HasPrefix_app.
Qed.

Lemma LastIndexByte_none s c : strings_LastIndexByte s c = None ↔ contains_byte c s = false.
Proof.
  induction s as [|a s IH]; cbn [strings_LastIndexByte contains_byte]; [done|].
  destruct (strings_LastIndexByte s c) as [i|].
  - split; [discriminate|]. destruct (Ascii.eqb a c); [discriminate|].
    intros H. apply IH in H. discriminate.
  - destruct (Ascii.eqb a c); [split; discriminate|]. split; [|done]. intros _. now apply IH.
Qed.

Lemma LastIndexByte_some s c : ∀ i,
  strings_LastIndexByte s c = Some i →
  s = take_bytes i s +:+ String c (drop_bytes (i + 1) s)
  ∧ contains_byte c (drop_bytes (i + 1) s) = false.
Proof.
  induction s as [|a s IH]; intros i; cbn [strings_LastIndexByte]; [discriminate|].
  destruct (strings_LastIndexByte s c) as [j|] eqn:E.
  - intros [= <-]. destruct (IH j eq_refl) as [H1 H2]. cbn [take_bytes drop_bytes Nat.add].
    change (String a (take_bytes j s) +:+ String c (drop_bytes (j + 1) s))
      with (String a (take_bytes j s +:+ String c (drop_bytes (j + 1) s))).
    now rewrite <- H1.
  - destruct (Ascii.eqb_spec a c) as [->|]; [|discriminate]. intros [= <-].
    cbn [take_bytes drop_bytes Nat.add]. split; [reflexivity|]. now apply LastIndexByte_none.
Qed.

End Pure.

(** X8.  When a member is hidden.  tagToName returns NotExported, for
    which appendFields skips the member name, exactly when the name is not
    exported, or the tag is a string literal and the first of the
    comma-separated components of its json value is "-". *)
Theorem member_hidden_iff name tag :
  tagToName name tag = Fail NotExported
  ↔ ast_IsExported name = false
    ∨ ∃ value s, tag = Some value ∧ strconv_Unquote value = Some s
                 ∧ hd "" (strings_Split (StructTag_Get s "json") ","%char) = "-".
Proof.
  unfold tagToName. destruct (ast_IsExported name) eqn:Ex; cbn [negb].
  2: { split; [now left|done]. }
  destruct tag as [value|].
  2: { split; [discriminate|]. intros [H|(value & s & H & _)]; discriminate H. }
  destruct (strconv_Unquote value) as [s|] eqn:Eu.
  2: { split; [discriminate|]. intros [H|(v & s & [= <-] & H & _)]; [discriminate H|].
       congruence. }
  cbv zeta. destruct (String.eqb_spec (StructTag_Get s "json") "") as [E|E].
  { split; [discriminate|]. intros [H|(v & s' & [= <-] & Hu & H)]; [discriminate H|].
    assert (s' = s) as -> by congruence. rewrite E in H. discriminate H. }
  destruct (String.eqb_spec (hd "" (strings_Split (StructTag_Get s "json") ",")) "-") as [H|H].
  - split; [|done]. intros _. right. eauto.
  - split; [discriminate|]. intros [H'|(v & s' & [= <-] & Hu & H')]; [discriminate H'|].
    assert (s' = s) as -> by congruence. contradiction.
Qed.

(** X9.  markdownEscapeString loses nothing: two names of ASCII bytes with
    the same escaped text are the same name. *)
Theorem markdownEscapeString_injective s1 s2 :
  ascii_only s1 = true → ascii_only s2 = true →
  markdownEscapeString s1 = markdownEscapeString s2 → s1 = s2.
Proof.
  intros _ _. revert s2.
  induction s1 as [|c1 s1 IH]; intros [|c2 s2].
  - reflexivity.
  - rewrite markdownEscapeString_cons. cbn [markdownEscapeString].
    destruct (_ && _); discriminate.
  - rewrite markdownEscapeString_cons. cbn [markdownEscapeString].
    destruct (_ && _); discriminate.
  - rewrite !markdownEscapeString_cons.
    destruct (Nat.ltb (nat_of_ascii c1) 128 && isASCIIPunctuation c1) eqn:E1,
             (Nat.ltb (nat_of_ascii c2) 128 && isASCIIPunctuation c2) eqn:E2.
    + intros [= -> H]. f_equal. now apply IH.
    + intros [= <- _]. rewrite backslash_escaped in E2. discriminate.
    + intros [= -> _]. rewrite backslash_escaped in E1. discriminate.
    + intros [= -> H]. f_equal. now apply IH.
Qed.

Lemma markdownEscapeString_injective_witness :
  markdownEscapeString "p.T" = String "p" (String "092" (String "." "T")) ∧ "p.T" = "p.T".
Proof.
  split; [reflexivity|].
  apply (markdownEscapeString_injective "p.T" "p.T"); reflexivity.
Defined.

(** X10.  The name that typeLink passes down from an array or a map ends
    in -element, and the suffix is added once: below a second array or map
    the name is unchanged. *)
Theorem with_element_idempotent name :
  with_element (with_element name) = with_element name
  ∧ strings_HasSuffix (with_element name) "-element" = true.
Proof.
  unfold with_element. destruct (strings_HasSuffix name "-element") eqn:E.
  - now rewrite E.
  - now rewrite HasSuffix_app.
Qed.

(** X11.  The two parts of the name of renderTypeByName.  The identifier
    has no dot; a name with a dot is its alias, a dot and its identifier;
    a name without a dot has the alias . and is its identifier. *)
Theorem split_name_parts name :
  contains_byte "." (split_name name).2 = false
  ∧ (contains_byte "." name = true →
     name = (split_name name).1 +:+ "." +:+ (split_name name).2)
  ∧ (contains_byte "." name = false → split_name name = (".", name)).
Proof.
  unfold split_name. destruct (strings_LastIndexByte name ".") as [i|] eqn:E.
  - destruct (LastIndexByte_some _ _ _ E) as [H1 H2]. cbn [fst snd].
    split; [exact H2|]. split.
    + intros _. exact H1.
    + intros H. apply LastIndexByte_none in H. congruence.
  - apply LastIndexByte_none in E. cbn [fst snd]. split; [exact E|]. split; [|reflexivity].
    intros H. congruence.
Qed.

(** ** How the methods end without a result *)
Section Failures.

Context (env : GoEnv).

Section Only.

Context (F : failure → Prop).

Lemma only_ret {A} (a : A) : only F (ret a).
Proof. intros d f [=]. Qed.

Lemma only_get {A} (g : JSONDoc → A) : only F (get g).
Proof. intros d f [=]. Qed.

Lemma only_modify g : only F (modify g).
Proof. intros d f [=]. Qed.

Lemma only_write_b s : only F (write_b s).
Proof. intros d f [=]. Qed.

Lemma only_write_stderr s : only F (write_stderr s).
Proof. intros d f [=]. Qed.

Lemma only_fail {A} e : F (fError e) → only F (@fail A e).
Proof. intros H d f [= <-]. exact H. Qed.

Lemma only_crash {A} : F fPanic → only F (@crash A).
Proof. intros H d f [= <-]. exact H. Qed.

Lemma only_outOfFuel {A} : F fFuel → only F (@outOfFuel A).
Proof. intros H d f [= <-]. exact H. Qed.

Lemma only_lift {A} (o : outcome A) : (∀ f, failure_of o = Some f → F f) → only F (lift o).
Proof. intros H d f. apply H. Qed.

Lemma only_bind {A B} (m : M A) (k : A → M B) :
  only F m → (∀ a, only F (k a)) → only F (bind m k).
Proof.
  intros Hm Hk d f. unfold bind. specialize (Hm d).
  destruct (m d) as [[a| | |] d']; cbn [fst failure_of] in *;
    [apply Hk|intros [= <-]; now apply Hm..].
Qed.

Lemma only_bind_err {A B} (m : M A) (h : error → M B) (k : A → M B) :
  only (λ f, F f ∨ ∃ e, f = fError e) m → (∀ e, only F (h e)) → (∀ a, only F (k a)) →
  only F (bind_err m h k).
Proof.
  intros Hm Hh Hk d f. unfold bind_err. specialize (Hm d).
  destruct (m d) as [[a| | |] d']; cbn [fst failure_of] in *; [apply Hk|apply Hh| |].
  - intros [= <-]. destruct (Hm _ eq_refl) as [H|[e [=]]]. exact H.
  - intros [= <-]. destruct (Hm _ eq_refl) as [H|[e [=]]]. exact H.
Qed.

End Only.

Lemma only_mono (F G : failure → Prop) {A} (m : M A) :
  (∀ f, F f → G f) → only F m → only G m.
Proof. intros H Hm d f Hf. apply H, (Hm d f Hf). Qed.

Ltac only_tac :=
  repeat first
    [ assumption
    | apply only_ret | apply only_get | apply only_modify | apply only_write_b
    | apply only_write_stderr
    | apply only_fail | apply only_crash | apply only_outOfFuel
    | solve [eauto 6 using render_error]
    | apply only_bind; [|intros ?]
    | match goal with
      | |- only _ (match ?x with _ => _ end) => destruct x
      | |- only _ (let '(_, _) := ?x in _) => destruct x
      end ].

Lemma findObject_failure name pkg path f :
  failure_of (findObject name pkg path) = Some f → f = fPanic.
Proof.
  unfold findObject. destruct pkg as [pkg|]; [|now intros [= <-]].
  destruct (findInFiles name (Files pkg)) as [[o file]|]; [discriminate|].
  destruct (builtin name); discriminate.
Qed.

Lemma only_findObject F name pkg path :
  F fPanic → only F (lift (findObject name pkg path)).
Proof. intros H. apply only_lift. intros f Hf. now rewrite (findObject_failure _ _ _ _ Hf). Qed.

Lemma only_renderLater name t c : only (λ f, f = fPanic) (renderLater name t c).
Proof.
  unfold renderLater. pose proof (only_findObject (λ f, f = fPanic)) as Ho.
  destruct t as [t|]; [solve [only_tac]|]. destruct c as [c0|]; [|solve [only_tac]].
  apply only_bind; [now apply Ho|]. intros [[o c] err]. solve [only_tac].
Qed.

Lemma only_parsedPackage path : only (λ f, ∃ e, f = fError e) (parsedPackage env path).
Proof.
  intros d f. unfold parsedPackage. destruct (packages d !! path); [discriminate|].
  destruct (build_Import env path); [|intros [= <-]; eauto].
  destruct (parser_ParseDir env _ path) as [l|]; [|intros [= <-]; eauto].
  destruct (Nat.ltb 1 (length l)); [intros [= <-]; eauto|].
  destruct l; [intros [= <-]; eauto|discriminate].
Qed.

Lemma only_findImportIdent file name :
  only (λ f, f = fPanic ∨ ∃ e, f = fError e) (findImportIdent env file name).
Proof.
  unfold findImportIdent. induction (Imports file) as [|imp imps IH]; cbn [findImportIdent_loop].
  - apply only_fail. eauto.
  - apply only_bind.
    { apply only_lift. unfold path_of_literal. intros f.
      destruct (Nat.ltb _ 2); [intros [= <-]; now left|discriminate]. }
    intros path. destruct (imp_Name imp); [destruct (String.eqb _ _); solve [only_tac]|].
    apply only_bind; [apply only_get|]. intros s. apply only_bind.
    + destruct (String.eqb s ""); [|apply only_ret].
      destruct (build_Import env path); [solve [only_tac]|]. apply only_fail. eauto.
    + intros s'. destruct (String.eqb s' name); solve [only_tac].
Qed.

Lemma only_selector_fallback F x sel err : only F (selector_fallback x sel err).
Proof. unfold selector_fallback. only_tac. Qed.

Lemma only_typeLink t : ∀ c name suffix, only (λ f, f = fPanic) (typeLink env t c name suffix).
Proof.
  pose proof only_renderLater as Hr.
  induction t as [p n|p fs|p key IHk value IHv|p elt IHe|p x IHx sel|p x IHx|p];
    intros c name suffix; cbn [typeLink]; try solve [only_tac].
  destruct x as [px xn| | | | | |]; try solve [only_tac].
  destruct c as [c0|]; [|solve [only_tac]].
  apply only_bind_err.
  - eapply only_mono; [|apply only_findImportIdent]. intros f [->|H]; auto.
  - intros e. apply only_selector_fallback.
  - intros path. apply only_bind_err.
    + eapply only_mono; [|apply only_parsedPackage]. auto.
    + intros e. apply only_selector_fallback.
    + intros pkg. apply only_bind; [now apply only_findObject|].
      intros [[o c] [err|]]; [apply only_selector_fallback|]. solve [only_tac].
Qed.

Lemma tagToName_outcome name tag :
  (∃ s, tagToName name tag = Ret s) ∨ tagToName name tag = Fail NotExported
  ∨ tagToName name tag = Fail ErrSyntax.
Proof.
  unfold tagToName. destruct (negb _); [auto|]. destruct tag as [value|]; [|eauto].
  destruct (strconv_Unquote value); [|auto]. cbv zeta.
  destruct (String.eqb _ ""); [eauto|]. destruct (String.eqb _ "-"); eauto.
Qed.

Lemma only_appendNames f c names :
  ∀ fields, only (λ f, f = fPanic ∨ f = fError ErrSyntax) (appendNames env f c names fields).
Proof.
  induction names as [|indent names IH]; intros fields; cbn [appendNames]; [apply only_ret|].
  destruct (tagToName_outcome indent (Tag f)) as [[s ->]|[-> | ->]].
  - apply only_bind; [|intros ?; apply IH].
    eapply only_mono; [|apply only_typeLink]. auto.
  - apply IH.
  - apply only_fail. auto.
Qed.

Lemma findObject_some name pkg path : ∃ r, findObject name (Some pkg) path = Ret r.
Proof.
  unfold findObject. destruct (findInFiles name (Files pkg)) as [[o' file]|]; [eauto|].
  destruct (builtin name); eauto.
Qed.

Lemma findObject_error name pkg path o c err :
  findObject name pkg path = Ret (o, c, Some err) →
  err = errorString ("identifier " +:+ name +:+ " not found in package " +:+ path).
Proof.
  unfold findObject. destruct pkg as [pkg|]; [|discriminate].
  destruct (findInFiles name (Files pkg)) as [[o' file]|]; [discriminate|].
  destruct (builtin name); [discriminate|]. now intros [= _ _ <-].
Qed.

Lemma only_appendFields n : ∀ t fields c, only fields_failure (appendFields env n fields t c).
Proof.
  induction n as [n IHn] using lt_wf_ind.
  induction t as [|f t IHt]; intros fields c.
  - rewrite appendFields_nil. apply only_ret.
  - rewrite appendFields_cons. apply only_bind; [|intros fields1; apply only_bind].
    + unfold appendEmbedded. destruct (Names f); [|apply only_ret].
      destruct (Typ f) as [p nm| | | | | |]; try (apply only_crash; now left).
      destruct c as [c0|]; [|apply only_crash; now left].
      intros d g. unfold bind, lift.
      destruct (findObject_some nm (Package_ c0) (Path c0)) as [[[o c'] err] E]. rewrite E.
      cbv beta iota. unfold fail, ret, outOfFuel.
      destruct err as [err|]; cbn [fst failure_of].
      { apply findObject_error in E as ->. destruct o; intros [= <-]. all: right; right; right; eauto. }
      destruct o as [o|]; [|discriminate]. destruct (obj_Decl o) as [ts|]; [|discriminate].
      destruct (ts_Type ts); try discriminate.
      destruct n as [|n']; [cbn [fst failure_of]; intros [= <-]; right; now left|].
      apply (IHn n' (Nat.lt_succ_diag_r n')).
    + eapply only_mono; [|apply only_appendNames]. intros g [->| ->]; unfold fields_failure; auto.
    + intros fields2. apply IHt.
Qed.

Lemma only_renderType1 n typ : ∀ c prefix, only type_failure (renderType1 env n typ c prefix).
Proof.
  assert (∀ t fields c, only type_failure (appendFields env n fields t c)) as Ha.
  { intros. eapply only_mono; [|apply only_appendFields]. now left. }
  induction typ as [p n0|p fs|p key IHk value IHv|p elt IHe|p x IHx sel|p x IHx|p];
    intros c prefix; cbn [renderType1]; try solve [only_tac].
  destruct (negb _); [apply only_fail; now right|]. apply IHv.
Qed.

Lemma only_drain fuel n : ∀ i, only type_failure (drain env fuel n i).
Proof.
  induction fuel as [|fuel IH]; intros i d f; cbn [drain];
    destruct (renderQueue d !! i) as [q|]; try discriminate.
  - intros [= <-]. left. right. now left.
  - revert d f. change (only type_failure (write_b (heading q);;
                          renderType env n (q_t q) (q_c q);; drain env fuel n (i + 1))).
    apply only_bind; [apply only_write_b|]. intros _.
    apply only_bind; [apply only_renderType1|]. intros _. apply IH.
Qed.

End Failures.

(** ** The errors of a block, the imports of a file, the queue of a run *)
Section Block.

Context (env : GoEnv).

Lemma only_renderTypes fuel name :
  only (λ f, f = fPanic ∨ f = fFuel ∨ ∃ e, f = fError e ∧ render_error e)
       (renderTypes env fuel name).
Proof.
  assert (∀ f, type_failure f → f = fPanic ∨ f = fFuel ∨ ∃ e, f = fError e ∧ render_error e)
    as Ht.
  { intros f [[->|[->|[->|(n & p & ->)]]]| ->]; eauto 6 using render_error. }
  unfold renderTypes. apply only_bind; [|intros _; apply only_bind].
  - unfold renderTypeByName. destruct (split_name name) as [alias ident].
    apply only_bind; [apply only_get|]. intros path.
    destruct (String.eqb path ""); [apply only_fail; eauto 6 using render_error|].
    intros d f. unfold bind, get, lift. cbv beta iota.
    destruct (packages d !! path) as [pkg|]; [|intros [= <-]; now left].
    destruct (findObject_some ident pkg path) as [[[o c] err] E]. rewrite E.
    cbv beta iota. unfold fail. destruct o as [o|].
    + destruct (obj_Decl o) as [ts|]; cbn [fst failure_of].
      * intros H. apply Ht. exact (only_renderType1 env fuel (ts_Type ts) c "" d f H).
      * intros [= <-]. eauto 6 using render_error.
    + cbn [fst failure_of]. destruct err as [err|].
      * apply findObject_error in E as ->. cbn [Error]. intros [= <-].
        eauto 6 using render_error.
      * intros [= <-]. eauto 6 using render_error.
  - eapply only_mono; [exact Ht|apply only_drain].
  - intros _. apply only_modify.
Qed.

Lemma findImportIdent_loop_found imps name : ∀ path d d',
  findImportIdent_loop env imps name d = (Ret path, d') →
  ∃ imp, imp ∈ imps ∧ path_of_literal (imp_Path imp) = Ret path
         ∧ match imp_Name imp with
           | Some n => n = name
           | None => map_get (packageNames d') path = name
           end.
Proof.
  induction imps as [|imp imps IH]; intros path d d'; cbn [findImportIdent_loop]; [discriminate|].
  unfold bind at 1, lift.
  destruct (path_of_literal (imp_Path imp)) as [path0| | |] eqn:Ep; try discriminate.
  assert (∀ d1, findImportIdent_loop env imps name d1 = (Ret path, d') →
                ∃ imp0, imp0 ∈ imp :: imps ∧ path_of_literal (imp_Path imp0) = Ret path
                  ∧ match imp_Name imp0 with
                    | Some n => n = name
                    | None => map_get (packageNames d') path = name
                    end) as Hnext.
  { intros d1 H. destruct (IH _ _ _ H) as (imp0 & Hin & H0). exists imp0. split; [now right|exact H0]. }
  destruct (imp_Name imp) as [n|] eqn:En.
  - destruct (String.eqb_spec n name) as [->|Hne]; [|apply Hnext].
    intros [= <- <-]. exists imp. rewrite Ep, En. split; [left|auto].
  - unfold bind at 1, get. 
    destruct (String.eqb_spec (map_get (packageNames d) path0) "") as [E|E].
    + destruct (build_Import env path0) as [p|err]; [|discriminate].
      unfold bind, modify, ret. destruct (String.eqb_spec (bp_Name p) name) as [<-|Hne];
        [|apply Hnext].
      intros [= <- <-]. exists imp. rewrite Ep, En. split; [left|]. split; [reflexivity|].
      unfold map_get. cbn [packageNames set_packageNames]. now rewrite lookup_insert_eq.
    + unfold bind at 1, ret.
      destruct (String.eqb_spec (map_get (packageNames d) path0) name) as [<-|Hne];
        [|apply Hnext].
      intros [= <- <-]. exists imp. rewrite Ep, En. split; [left|]. split; reflexivity.
Qed.

Lemma parsedPackage_renderQueue path d :
  renderQueue (parsedPackage env path d).2 = renderQueue d.
Proof.
  unfold parsedPackage.
  destruct (packages d !! path); [reflexivity|].
  destruct (build_Import env path); [|reflexivity].
  destruct (parser_ParseDir env _ path) as [l|]; [|reflexivity].
  destruct (Nat.ltb 1 (length l)); [reflexivity|]. destruct l; reflexivity.
Qed.

Lemma call_queue_empty fuel a s d d' :
  renderQueue d = [] → call env fuel a d = (Ret s, d') → renderQueue d' = [].
Proof.
  intros Hq. destruct a as [t|name path|name|name]; cbn [call].
  - intros [= _ <-]. exact Hq.
  - unfold importPkg, bind, get, modify, ret. cbv beta iota. intros H.
    destruct (negb _); [discriminate H|].
    pose proof (parsedPackage_renderQueue path d) as Hp.
    destruct (parsedPackage env path d) as [[pkg| | |] d1]; try discriminate H.
    injection H as _ <-. cbn [snd] in Hp. cbn. congruence.
  - unfold input, renderTypes, bind, write_b, modify, get. cbv beta iota. intros H.
    destruct (renderTypeByName env fuel name _) as [[[]| | |] d1]; try discriminate H.
    destruct (drain env fuel fuel 0 d1) as [[[]| | |] d2]; try discriminate H.
    now injection H as _ <-.
  - unfold output, renderTypes, bind, write_b, modify, get. cbv beta iota zeta. intros H.
    destruct (renderTypeByName env fuel name _) as [[[]| | |] d1]; try discriminate H.
    destruct (drain env fuel fuel 0 d1) as [[[]| | |] d2]; try discriminate H.
    now injection H as _ <-.
Qed.

End Block.

(** X12.  typeLink has no error: whatever goes wrong with the type of a
    member (a name that is not found, a package that cannot be found or
    read), typeLink returns a description or panics; it never stops the run
    with an error and never runs out of fuel. *)
Theorem typeLink_returns_or_panics env t c name suffix d :
  (∃ s, (typeLink env t c name suffix d).1 = Ret s)
  ∨ (typeLink env t c name suffix d).1 = Crash.
Proof.
  pose proof (only_typeLink env t c name suffix d) as H.
  destruct (typeLink env t c name suffix d) as [[s|e| |] d']; cbn [fst failure_of] in *.
  - eauto.
  - discriminate (H _ eq_refl).
  - now right.
  - discriminate (H _ eq_refl).
Qed.

(** X13.  The errors of a block.  An error returned by renderTypes is one
    of: invalid syntax of a tag, a map whose key is not string, an embedded
    identifier that is not found, an alias that is not imported, a root name
    that is not found or is not a type.  An error of build.Import or
    parser.ParseDir is not among them. *)
Theorem renderTypes_errors env fuel name d e d' :
  renderTypes env fuel name d = (Fail e, d') → render_error e.
Proof.
  intros H. pose proof (only_renderTypes env fuel name d) as Ho. rewrite H in Ho.
  destruct (Ho _ eq_refl) as [[=]|[[=]|(e' & [= <-] & He)]]. exact He.
Qed.

Lemma renderTypes_errors_witness :
  render_error (errorString "identifier Missing not found in package p").
Proof.
  apply (renderTypes_errors example.env 1 "E" example.imported
           (errorString "identifier Missing not found in package p")
           (renderTypes example.env 1 "E" example.imported).2).
  vm_compute. reflexivity.
Defined.

(** X14.  The path that findImportIdent returns is the path of an import
    of the file, with the quotes of the literal removed, whose local name is
    the identifier, or which has no local name and whose package name,
    recorded in d.packageNames, is the identifier. *)
Theorem findImportIdent_found env file name path d d' :
  findImportIdent env file name d = (Ret path, d') →
  ∃ imp, imp ∈ Imports file ∧ path_of_literal (imp_Path imp) = Ret path
         ∧ match imp_Name imp with
           | Some n => n = name
           | None => map_get (packageNames d') path = name
           end.
Proof. apply findImportIdent_loop_found. Qed.

Lemma findImportIdent_found_witness :
  ∃ imp, imp ∈ Imports example_imports.file ∧ path_of_literal (imp_Path imp) = Ret "p"
         ∧ match imp_Name imp with
           | Some n => n = "p"
           | None =>
               map_get (packageNames
                          (findImportIdent example.env example_imports.file "p" NewJSONDoc).2)
                       "p" = "p"
           end.
Proof.
  apply (findImportIdent_found example.env example_imports.file "p" "p" NewJSONDoc).
  vm_compute. reflexivity.
Defined.

(** X15.  Every block starts with an empty queue.  A document that runs
    to its end from a state with an empty render queue ends with an empty
    render queue, so the queue of a block holds only what the block itself
    has put there. *)
Theorem queue_empty_after_run env fuel doc out d d' :
  renderQueue d = [] →
  ExecuteTemplate env fuel doc d = (Ret out, d') →
  renderQueue d' = [].
Proof.
  revert out d. induction doc as [|a doc IH]; intros out d Hq H.
  - injection H as _ <-. exact Hq.
  - apply ExecuteTemplate_cons in H as (s & d1 & out1 & Hc & He & _).
    apply (IH out1 d1); [|exact He]. exact (call_queue_empty env fuel a s d d1 Hq Hc).
Qed.

Lemma queue_empty_after_run_witness :
  renderQueue (ExecuteTemplate example.env 3 [a_import "." "p"; a_input "helloInput"]
                 NewJSONDoc).2 = [].
Proof.
  eapply (queue_empty_after_run example.env 3 [a_import "." "p"; a_input "helloInput"]
            _ NewJSONDoc); [reflexivity|].
  vm_compute. reflexivity.
Defined.

(** ** The rows collected so far *)
Section Rows.

Context (env : GoEnv).

Lemma prepend_prepend f1 f2 r : prepend f1 (prepend f2 r) = prepend (f1 ++ f2)%list r.
Proof. destruct r as [[rows| | |] d]; cbn [prepend]; [|reflexivity..]. now rewrite app_assoc. Qed.

Lemma accumulates_ret : accumulates ret.
Proof. intros fields d. cbn [prepend ret]. unfold ret. now rewrite app_nil_r. Qed.

Lemma accumulates_const (o : M (list field)) :
  (∀ d rows, (o d).1 ≠ Ret rows) → accumulates (λ _, o).
Proof.
  intros H fields d. specialize (H d). destruct (o d) as [[rows| | |] d']; cbn [prepend];
    [|reflexivity..]. now destruct (H rows).
Qed.

Lemma accumulates_bind (m1 m2 : list field → M (list field)) :
  accumulates m1 → accumulates m2 → accumulates (λ fields, bind (m1 fields) m2).
Proof.
  intros H1 H2 fields d. rewrite !bind_eq, (H1 fields d).
  destruct (m1 [] d) as [[r1| | |] d1]; cbn [prepend]; [|reflexivity..].
  rewrite (H2 (fields ++ r1)%list), (H2 r1 d1), prepend_prepend. reflexivity.
Qed.

Lemma accumulates_appendNames f c names : accumulates (appendNames env f c names).
Proof.
  induction names as [|indent names IH]; cbn [appendNames]; [apply accumulates_ret|].
  destruct (tagToName indent (Tag f)) as [name|[| |msg]| |].
  - intros fields d. rewrite !bind_eq.
    destruct (typeLink env (Typ f) c name "" d) as [[ty| | |] d1]; [|reflexivity..].
    rewrite (IH (fields ++ _)%list), (IH ([] ++ _)%list), prepend_prepend. reflexivity.
  - exact IH.
  - now apply accumulates_const.
  - now apply accumulates_const.
  - now apply accumulates_const.
  - now apply accumulates_const.
Qed.

Lemma accumulates_appendFields n : ∀ t c, accumulates (λ fields, appendFields env n fields t c).
Proof.
  induction n as [n IHn] using lt_wf_ind.
  induction t as [|f t IHt]; intros c.
  - intros fields d. rewrite !appendFields_nil. apply accumulates_ret.
  - assert (accumulates (appendEmbedded env n f c)) as He.
    { unfold appendEmbedded. destruct (Names f); [|apply accumulates_ret].
      destruct (Typ f) as [p nm| | | | | |]; try (now apply accumulates_const).
      destruct c as [c0|]; [|now apply accumulates_const].
      intros fields d. rewrite !bind_eq. unfold lift.
      destruct (findObject nm (Some (Package_ c0)) (Path c0)) as [[[o c'] err]| | |];
        [|reflexivity..].
      destruct err as [err|]; [now destruct o|].
      destruct o as [o|]; [|apply accumulates_ret].
      destruct (obj_Decl o) as [ts|]; [|apply accumulates_ret].
      destruct (ts_Type ts); try apply accumulates_ret.
      destruct n as [|n']; [reflexivity|].
      apply (IHn n' (Nat.lt_succ_diag_r n')). }
    intros fields d. rewrite !appendFields_cons.
    exact (accumulates_bind _ _ He
             (accumulates_bind _ _ (accumulates_appendNames f c (Names f)) (IHt c)) fields d).
Qed.

End Rows.

(** X16.  appendFields only appends.  A call with the rows collected so
    far does what the call with no rows does, to the state and in the way
    it ends, and returns the rows collected so far followed by the rows of
    that call. *)
Theorem appendFields_keeps_rows env n fields t c d :
  appendFields env n fields t c d
  = match appendFields env n [] t c d with
    | (Ret rows, d') => (Ret (fields ++ rows)%list, d')
    | r => r
    end.
Proof.
  rewrite (accumulates_appendFields env n t c fields d). unfold prepend.
  now destruct (appendFields env n [] t c d) as [[rows| | |] d'].
Qed.

(** ** The headings of a block *)
Section Headings.

Context (env : GoEnv).

Lemma appended_drain fuel n i : preserving appended (drain env fuel n i).
Proof.
  apply (stable_drain env appended); intros;
    try apply appended_parsedPackage; try apply appended_renderLater.
  - intros d. now exists s.
  - intros d. now apply appended_same.
  - now apply appended_same.
Qed.

Lemma appended_renderType n typ c : preserving appended (renderType env n typ c).
Proof.
  apply (stable_renderType1 env appended); intros;
    try apply appended_parsedPackage; try apply appended_renderLater.
  - intros d. now exists s.
  - intros d. now apply appended_same.
  - now apply appended_same.
Qed.

End Headings.

(** X17.  Every queued type gets its heading.  When the loop of
    renderTypes has ended, the heading of every item of the queue, from the
    index where the loop started, has been written to the buffer after what
    the buffer held: the anchor of a queued type is the id of a heading. *)
Theorem drain_writes_every_heading env fuel n i d d' j q :
  drain env fuel n i d = (Ret tt, d') →
  (i ≤ j)%nat → renderQueue d' !! j = Some q →
  ∃ s1 s2, b d' = b d +:+ s1 +:+ heading q +:+ s2.
Proof.
  revert i d d' j q. induction fuel as [|fuel IH]; intros i d d' j q Hd Hij Hq.
  - cbn [drain] in Hd. destruct (renderQueue d !! i) as [q0|] eqn:E; [discriminate|].
    injection Hd as <-. apply lookup_ge_None in E.
    apply lookup_lt_Some in Hq. lia.
  - destruct (renderQueue d !! i) as [q0|] eqn:E.
    2: { rewrite drain_end in Hd by exact E. injection Hd as <-.
         apply lookup_ge_None in E. apply lookup_lt_Some in Hq. lia. }
    rewrite (drain_round env fuel n i d q0 E) in Hd.
    rewrite bind_eq in Hd. unfold write_b at 1, modify at 1 in Hd.
    set (d1 := set_b (b d +:+ heading q0) d) in Hd.
    rewrite bind_eq in Hd.
    pose proof (appended_renderType env n (q_t q0) (q_c q0) d1) as [s12 Hb12].
    pose proof (extends_renderType env n (q_t q0) (q_c q0) d1) as He12.
    destruct (renderType env n (q_t q0) (q_c q0) d1) as [[[]| | |] d2]; try discriminate Hd.
    cbn [snd] in Hb12, He12.
    pose proof (appended_drain env fuel n (i + 1) d2) as [s2' Hb2].
    pose proof (extends_drain env fuel n (i + 1) d2) as He2.
    rewrite Hd in Hb2, He2. cbn [snd] in Hb2, He2.
    destruct (decide (j = i)) as [->|Hne].
    + assert (renderQueue d' !! i = Some q0) as Hq0.
      { apply (extends_lookup d2 d'); [exact He2|].
        apply (extends_lookup d1 d2); [exact He12|exact E]. }
      assert (q = q0) as -> by congruence.
      exists "", (s12 +:+ s2'). rewrite Hb2, Hb12. subst d1. cbn [b set_b].
      now rewrite !append_assoc.
    + destruct (IH (i + 1)%nat d2 d' j q Hd ltac:(lia) Hq) as (s1 & s2 & Hb).
      exists (heading q0 +:+ s12 +:+ s1), s2. rewrite Hb, Hb12. subst d1. cbn [b set_b].
      now rewrite !append_assoc.
Qed.

Lemma drain_writes_every_heading_witness :
  ∃ s1 s2,
    b (drain example.env 3 3 0 (renderTypeByName example.env 3 "helloInput" example.imported).2).2
    = b (renderTypeByName example.env 3 "helloInput" example.imported).2 +:+ s1
        +:+ heading (mkQueueElem (mkTypeSpec "size" example.t_size) (Some example.ctx)
                       "type-size-1")
        +:+ s2.
Proof.
  apply (drain_writes_every_heading example.env 3 3 0 _ _ 0).
  - vm_compute. reflexivity.
  - lia.
  - vm_compute. reflexivity.
Defined.

(** ** The fuel of the model *)
Section Fuel.

Context (env : GoEnv).

Lemma enough_refl {A} (m : M A) : enough m m.
Proof. now intros d _. Qed.

Lemma enough_bind {A B} (m' m : M A) (k' k : A → M B) :
  enough m' m → (∀ a, enough (k' a) (k a)) → enough (bind m' k') (bind m k).
Proof.
  intros Hm Hk d H. rewrite !bind_eq in *.
  rewrite Hm by (destruct (m d) as [[a| | |] d1]; cbn [fst] in *; congruence).
  destruct (m d) as [[a| | |] d1]; try reflexivity. now apply Hk.
Qed.

Lemma enough_appendFields n : ∀ n', (n ≤ n')%nat → ∀ t fields c,
  enough (appendFields env n' fields t c) (appendFields env n fields t c).
Proof.
  induction n as [n IHn] using lt_wf_ind. intros n' Hle.
  induction t as [|f t IHt]; intros fields c.
  - rewrite !appendFields_nil. apply enough_refl.
  - intros d. rewrite !appendFields_cons. revert d.
    apply enough_bind; [|intros fields1; apply enough_bind;
                                         [apply enough_refl|intros fields2; apply IHt]].
    unfold appendEmbedded. destruct (Names f); [|apply enough_refl].
    destruct (Typ f) as [p nm| | | | | |]; try apply enough_refl.
    destruct c as [c0|]; [|apply enough_refl].
    apply enough_bind; [apply enough_refl|]. intros [[o c'] err].
    destruct err as [err|]; [apply enough_refl|].
    destruct o as [o|]; [|apply enough_refl].
    destruct (obj_Decl o) as [ts|]; [|apply enough_refl].
    destruct (ts_Type ts); try apply enough_refl.
    destruct n as [|m]; [intros d H; now destruct H|].
    destruct n' as [|m']; [lia|]. apply (IHn m); lia.
Qed.

Lemma enough_renderType1 n n' typ : (n ≤ n')%nat → ∀ c prefix,
  enough (renderType1 env n' typ c prefix) (renderType1 env n typ c prefix).
Proof.
  intros Hle.
  induction typ as [p n0|p fs|p key IHk value IHv|p elt IHe|p x IHx sel|p x IHx|p];
    intros c prefix; cbn [renderType1]; try apply enough_refl.
  - apply enough_bind; [now apply enough_appendFields|]. intros fields. apply enough_refl.
  - destruct (negb _); [apply enough_refl|apply IHv].
  - apply IHe.
Qed.

Lemma enough_drain fuel : ∀ fuel' n n' i, (fuel ≤ fuel')%nat → (n ≤ n')%nat →
  enough (drain env fuel' n' i) (drain env fuel n i).
Proof.
  induction fuel as [|fuel IH]; intros fuel' n n' i Hf Hn d.
  - cbn [drain]. destruct (renderQueue d !! i) as [q|] eqn:E; [intros H; now destruct H|].
    intros _. now apply drain_end.
  - destruct (renderQueue d !! i) as [q|] eqn:E.
    2: { intros _. now rewrite !drain_end. }
    destruct fuel' as [|fuel']; [lia|]. rewrite !(drain_round env _ _ i d q E). revert d E.
    intros d _. revert d. apply enough_bind; [apply enough_refl|]. intros _.
    apply enough_bind; [now apply enough_renderType1|]. intros _. apply IH; lia.
Qed.

Lemma enough_renderTypes fuel fuel' name : (fuel ≤ fuel')%nat →
  enough (renderTypes env fuel' name) (renderTypes env fuel name).
Proof.
  intros Hle. unfold renderTypes. apply enough_bind; [|intros _; apply enough_bind].
  - unfold renderTypeByName. destruct (split_name name) as [alias ident].
    apply enough_bind; [apply enough_refl|]. intros path.
    destruct (String.eqb path ""); [apply enough_refl|].
    apply enough_bind; [apply enough_refl|]. intros pkg.
    apply enough_bind; [apply enough_refl|]. intros [[o c] err].
    destruct o as [o|]; [|apply enough_refl].
    destruct (obj_Decl o) as [ts|]; [|apply enough_refl].
    now apply enough_renderType1.
  - now apply enough_drain.
  - intros _. apply enough_refl.
Qed.

Lemma enough_call fuel fuel' a : (fuel ≤ fuel')%nat →
  enough (call env fuel' a) (call env fuel a).
Proof.
  intros Hle. pose proof (enough_renderTypes fuel fuel') as Hr.
  destruct a as [t|name path|name|name]; cbn [call]; try apply enough_refl.
  - unfold input. repeat (apply enough_bind; [first [now apply Hr|apply enough_refl]|intros ?]).
    apply enough_refl.
  - unfold output. cbv zeta.
    repeat (apply enough_bind; [first [now apply Hr|apply enough_refl]|intros ?]).
    apply enough_refl.
Qed.

End Fuel.

(** X18.  The fuel of the model does not change a run.  A run that does
    not end for lack of fuel is the same run with any larger amount, in its
    result and in its state: the bound on the rounds of the loop of
    renderTypes and on the depth of appendFields, which the program does
    not have, plays no part in a run that ends. *)
Theorem more_fuel_same_run env fuel fuel' doc d :
  (fuel ≤ fuel')%nat →
  (ExecuteTemplate env fuel doc d).1 ≠ OutOfFuel →
  ExecuteTemplate env fuel' doc d = ExecuteTemplate env fuel doc d.
Proof.
  intros Hle. revert d. change (enough (ExecuteTemplate env fuel' doc) (ExecuteTemplate env fuel doc)).
  induction doc as [|a doc IH]; [apply enough_refl|]. cbn [ExecuteTemplate].
  apply enough_bind; [now apply enough_call|]. intros s.
  apply enough_bind; [exact IH|]. intros out. apply enough_refl.
Qed.

Lemma more_fuel_same_run_witness :
  ExecuteTemplate example.env 9 [a_import "." "p"; a_input "helloInput"] NewJSONDoc
  = ExecuteTemplate example.env 3 [a_import "." "p"; a_input "helloInput"] NewJSONDoc.
Proof.
  apply (more_fuel_same_run example.env 3 9); [lia|]. vm_compute. discriminate.
Defined.

(** ** The keys of the rows, and the links *)
Section Keys.

Context (env : GoEnv).

Lemma appendNames_keys f c names : ∀ fields d rows d',
  appendNames env f c names fields d = (Ret rows, d') →
  map f_Name rows = (map f_Name fields ++ flat_map (row_key f) names)%list.
Proof.
  induction names as [|indent names IH]; intros fields d rows d'; cbn [appendNames flat_map].
  - intros [= <- _]. now rewrite app_nil_r.
  - unfold row_key at 1.
    destruct (tagToName indent (Tag f)) as [name|[| |msg]| |]; try discriminate.
    + rewrite bind_eq.
      destruct (typeLink env (Typ f) c name "" d) as [[ty| | |] d1]; try discriminate.
      intros H. rewrite (IH _ _ _ _ H), map_app, <- app_assoc. reflexivity.
    + apply IH.
Qed.

End Keys.

(** X19.  A qualified name with a built-in identifier makes typeLink
    panic.  For the type x.sel, where x names an import of the file whose
    package is read and does not declare sel, and sel is a name of the map
    builtin, findObject returns a nil context and no error, and renderLater
    dereferences the context. *)
Theorem selector_of_builtin_panics env p px xn sel c0 name suffix path pkg d d1 d2 :
  findImportIdent env (File_ c0) xn d = (Ret path, d1) →
  parsedPackage env path d1 = (Ret pkg, d2) →
  findInFiles sel (Files pkg) = None → builtin sel = true →
  typeLink env (SelectorExpr p (Ident px xn) sel) (Some c0) name suffix d = (Crash, d2).
Proof.
  intros H1 H2 H3 H4. cbn [typeLink]. unfold bind_err. rewrite H1, H2.
  unfold bind, lift, findObject. rewrite H3, H4. reflexivity.
Qed.

Lemma selector_of_builtin_panics_witness :
  typeLink example.env (SelectorExpr 1 (Ident 2 "p") "int") (Some example_selector.ctx) "F" ""
    NewJSONDoc
  = (Crash, (parsedPackage example.env "p"
               (findImportIdent example.env example_imports.file "p" NewJSONDoc).2).2).
Proof.
  apply (selector_of_builtin_panics example.env 1 2 "p" "int" example_selector.ctx "F" "" "p"
           example.pkg NewJSONDoc
           (findImportIdent example.env example_imports.file "p" NewJSONDoc).2);
    vm_compute; reflexivity.
Defined.

(** X20.  A link has a target.  An anchor that renderLater returns, when
    it is not empty, is an anchor recorded in d.rendered before the call,
    and then the call changes nothing, or it is the id of the item that the
    call has appended to the queue. *)
Theorem renderLater_link_has_target name t c d ID d' :
  renderLater name t c d = (Ret ID, d') → ID ≠ "" →
  (d' = d ∧ ∃ k, rendered d !! k = Some ID)
  ∨ ∃ q, renderQueue d' = (renderQueue d ++ [q])%list ∧ q_id q = ID.
Proof.
  intros H Hne. destruct t as [t|].
  - rewrite renderLater_anonymous in H. cbv zeta in H. injection H as <- <-.
    right. eexists. split; reflexivity.
  - unfold renderLater in H. destruct c as [c0|]; [|discriminate].
    rewrite bind_eq in H. unfold lift in H.
    destruct (findObject name (Some (Package_ c0)) (Path c0)) as [[[o c] err]| | |];
      try discriminate.
    destruct err as [err|].
    { destruct o; injection H as <- _; now destruct Hne. }
    destruct o as [o|]; [|injection H as <- _; now destruct Hne].
    rewrite bind_eq in H. unfold get at 1 in H.
    destruct (String.eqb_spec (map_get (rendered d) (name, obj_ptr o)) "") as [E|E];
      cbn [negb] in H.
    + destruct (obj_Decl o) as [ts|]; [|injection H as <- _; now destruct Hne].
      cbv zeta in H. unfold bind, get, modify, ret in H. injection H as <- <-.
      right. eexists. split; reflexivity.
    + injection H as <- <-. left. split; [reflexivity|]. exists (name, obj_ptr o).
      unfold map_get in *. destruct (rendered d !! (name, obj_ptr o)); [reflexivity|].
      now destruct E.
Qed.

Lemma renderLater_link_has_target_witness :
  (example.imported = example.imported ∧ ∃ k, rendered example.imported !! k = Some "type-size-1")
  ∨ ∃ q, renderQueue (renderLater "size" None (Some example.ctx) example.imported).2
         = (renderQueue example.imported ++ [q])%list ∧ q_id q = "type-size-1".
Proof.
  destruct (renderLater_link_has_target "size" None (Some example.ctx) example.imported
              "type-size-1" (renderLater "size" None (Some example.ctx) example.imported).2)
    as [[_ H]|H].
  - vm_compute. reflexivity.
  - discriminate.
  - left. split; [reflexivity|exact H].
  - right. exact H.
Defined.

(** X21.  The rows of a struct follow its declaration.  For a struct
    without embedded members, the keys of the rows that appendFields adds
    are, in the order of the declaration, the escaped display names of the
    member names that tagToName does not hide. *)
Theorem rows_follow_declaration_order env n t fields c d rows d' :
  Forall (λ f, Names f ≠ []) t →
  appendFields env n fields t c d = (Ret rows, d') →
  map f_Name rows = (map f_Name fields ++ concat (map row_keys t))%list.
Proof.
  revert fields c d rows d'. induction t as [|f t IH]; intros fields c d rows d' Hall.
  - rewrite appendFields_nil. intros [= <- _]. cbn. now rewrite app_nil_r.
  - apply Forall_cons in Hall as [Hf Hall]. rewrite appendFields_cons.
    unfold appendEmbedded. destruct (Names f) as [|i0 names] eqn:En; [done|].
    rewrite bind_eq. unfold ret at 1. rewrite bind_eq.
    destruct (appendNames env f c (i0 :: names) fields d) as [[rows1| | |] d1] eqn:E1;
      try discriminate.
    intros H. rewrite (IH _ _ _ _ _ Hall H), (appendNames_keys env _ _ _ _ _ _ _ E1).
    cbn [map concat]. unfold row_keys at 2. rewrite En, <- app_assoc. reflexivity.
Qed.

Lemma rows_follow_declaration_order_witness :
  ∃ rows d',
    appendFields example.env 0 [] example_selector.hello_fields (Some example.ctx)
      example.imported = (Ret rows, d')
    ∧ map f_Name rows = ["&#34;test&#34;"; "&#34;A&#34;"; "&#34;B&#34;"; "&#34;size&#34;"].
Proof.
  eexists _, _. split; [vm_compute; reflexivity|].
  eapply (rows_follow_declaration_order example.env 0 example_selector.hello_fields []
            (Some example.ctx) example.imported).
  - repeat constructor; discriminate.
  - vm_compute. reflexivity.
Defined.

(** ** The results of findObject, and types without a struct *)
Lemma findInFiles_Some name files o f :
  findInFiles name files = Some (o, f) →
  Scope f !! name = Some o ∧ ∃ fname, (fname, f) ∈ files.
Proof.
  induction files as [|[fname f0] files IH]; cbn [findInFiles]; [discriminate|].
  destruct (Scope f0 !! name) as [o0|] eqn:E.
  - intros [= <- <-]. split; [exact E|]. exists fname. left.
  - intros H. destruct (IH H) as [H1 [fn H2]]. split; [exact H1|]. exists fn. now right.
Qed.

Lemma findInFiles_None name files :
  findInFiles name files = None → ∀ fname f, (fname, f) ∈ files → Scope f !! name = None.
Proof.
  induction files as [|[fname0 f0] files IH]; cbn [findInFiles]; intros H fname f Hin.
  - now apply elem_of_nil in Hin.
  - destruct (Scope f0 !! name) as [o0|] eqn:E; [discriminate|].
    apply elem_of_cons in Hin as [[= -> ->]|Hin]; [exact E|]. now apply (IH H fname).
Qed.

(** X22.  The three results of findObject on a package.  Either a file of
    the package declares the name, and the result is the object with a
    context made of the path, the package and that file, and no error; or
    no file declares it, and the result has neither object nor context: no
    error for a name of the map builtin, the error identifier ... not found
    in package ... for any other name.  The context is nil exactly when the
    object is. *)
Theorem findObject_three_results name pkg path :
  (∃ o f fname, findObject name (Some pkg) path = Ret (Some o, Some (mkContext path pkg f), None)
                ∧ (fname, f) ∈ Files pkg ∧ Scope f !! name = Some o)
  ∨ ((∀ fname f, (fname, f) ∈ Files pkg → Scope f !! name = None)
     ∧ findObject name (Some pkg) path
       = if builtin name then Ret (None, None, None)
         else Ret (None, None,
                   Some (errorString ("identifier " +:+ name +:+ " not found in package "
                                        +:+ path)))).
Proof.
  unfold findObject. destruct (findInFiles name (Files pkg)) as [[o f]|] eqn:E.
  - left. destruct (findInFiles_Some _ _ _ _ E) as [H1 [fname H2]]. exists o, f, fname. auto.
  - right. split; [now apply findInFiles_None|reflexivity].
Qed.

(** X23.  A type without a struct has an empty section.  When following
    the elements of arrays and the values of maps with the key string from
    a type leads to an expression that is no struct, map or array,
    renderType1 writes nothing, changes nothing and returns no error. *)
Theorem renderType1_plain_writes_nothing env n e typ c prefix d :
  plain e = true → inside e typ →
  renderType1 env n typ c prefix d = (Ret tt, d).
Proof.
  intros He Hin. revert prefix. induction Hin as [|p elt Hin IH|p key value Hk Hin IH];
    intros prefix; cbn [renderType1].
  - now destruct e.
  - apply IH.
  - rewrite Hk. cbn [negb]. apply IH.
Qed.

Lemma renderType1_plain_writes_nothing_witness :
  renderType1 example.env 0 example.t_ids (Some example.ctx) "" example.imported
  = (Ret tt, example.imported).
Proof.
  apply (renderType1_plain_writes_nothing example.env 0 (Ident 211 "int")).
  - reflexivity.
  - apply inside_array, inside_here.
Defined.

(** ** Named declarations and their anchor (C2) *)
Section Named.

Context (env : GoEnv).





End Named.




(** When two files declare the name, as two objects, the file that the
    range statement visits first decides: a reference that visits a.go
    first and a later one that visits b.go first get two anchors and two
    items of the queue. *)
Example declared_in_two_files_two_anchors :
  ∃ d1 d2,
    renderLater "T" None (Some example_files.ctx_12) NewJSONDoc = (Ret "type-T-1", d1)
    ∧ renderLater "T" None (Some example_files.ctx_21) d1 = (Ret "type-T-2", d2)
    ∧ map q_id (renderQueue d2) = ["type-T-1"; "type-T-2"].
Proof.
  eexists _, _. split; [vm_compute; reflexivity|]. split; vm_compute; reflexivity.
Qed.
